(** * unknown-parser: parenthesis resolver and evaluators

    A shallow embedding of [parentheses.js] and [evaluator.js].

    - JavaScript arrays are lists, read with [!!] and updated in place
      with [<[i:=x]>]; indices are [nat], the [level] counter is [Z]
      because the code decrements it below zero before it tests it.
    - A [throw Error(...)] is the [Throw] outcome; the error carries the
      data that the message template interpolates.
    - JavaScript numbers are IEEE 754 binary64 values: primitive floats.
      [parseInt] and [parseFloat] follow their ECMAScript definitions, on
      ASCII strings and with exact rounding.
    - The bindings are a plain object: a finite map from its own keys to
      Numbers, with [Object.prototype] behind it. Reading a name that is
      no key finds the inherited member if there is one, and
      [variables.hasOwnProperty] is the value under the key
      [hasOwnProperty] when the mapping has that key.
    - lexer.js, syntax_check.js and parse.js are not among the sources:
      the evaluators take them, and the exponentiation of Numbers, from a
      [Runtime]. *)

From Stdlib Require Import ZArith Lia Ascii String.
From Stdlib Require Import Floats.
From stdpp Require Import gmap strings list pretty.

Open Scope string_scope.
Open Scope list_scope.

(** ** Errors and outcomes *)

(** Every [Error] the two modules construct, and the two [TypeError]s the
    runtime raises: when a missing [fn] is called, and when the value
    under a key [hasOwnProperty] of the bindings is called. *)
Inductive error :=
  | BadParenthesesSyntax (i : nat)
      (* `Bad parentheses syntax at index ${i}` *)
  | IncorrectNumberOfValues (should_be is_ : nat)
      (* `Incorrect number of values passed: should be ${..} and is ${..}` *)
  | MissingValue (v : string)
      (* `Missing value for variable ${v}` *)
  | NotAFunction
      (* TypeError: node.fn is not a function *)
  | HasOwnPropertyNotAFunction
      (* TypeError: variables.hasOwnProperty (in fastEvaluate:
         values.hasOwnProperty) is not a function *)
  | FrontEndError (msg : string).
      (* whatever lexer, syntax_check or parse throw *)

(** The text of the error, from the template of its [throw]; the text of
    a [TypeError] is the engine's, and only what it says is not a
    function is kept. *)
Definition message (e : error) : string :=
  match e with
  | BadParenthesesSyntax i => "Bad parentheses syntax at index " +:+ pretty i
  | IncorrectNumberOfValues should_be is_ =>
      "Incorrect number of values passed: should be " +:+ pretty should_be
      +:+ " and is " +:+ pretty is_
  | MissingValue v => "Missing value for variable " +:+ v
  | NotAFunction => "fn is not a function"
  | HasOwnPropertyNotAFunction => "hasOwnProperty is not a function"
  | FrontEndError msg => msg
  end.

Inductive outcome (A : Type) :=
  | Return (a : A)
  | Throw (e : error).
Arguments Return {A} a.
Arguments Throw {A} e.

Definition bind {A B} (m : outcome A) (k : A -> outcome B) : outcome B :=
  match m with
  | Return a => k a
  | Throw e => Throw e
  end.

Notation "'try!' x := m 'in' k" := (bind m (fun x => k))
  (at level 10, x pattern, m at level 100, k at level 200,
   format "'[v' 'try!'  x  :=  m  'in' '/' k ']'").

(** ** Tokens *)

Record token := Token { type : string; value : string; position : nat }.

(** ** parentheses.js *)

(** [{ start, end, level }]; [end] is [null] until the block is closed. *)
Record paren := Paren { start : nat; end_ : option nat; level : Z }.

Definition set_end (b : paren) (e : nat) : paren :=
  {| start := start b; end_ := Some e; level := level b |}.

(** [!parens[p].end]: [null] and [0] are the falsy values of the field. *)
Definition falsy (e : option nat) : bool :=
  match e with
  | None => true
  | Some 0 => true
  | Some (S _) => false
  end.

(** The inner loop, [for (let p = parens.length - 1; p >= 0; p--)];
    the first argument is [p + 1]. *)
Fixpoint close_last (p1 : nat) (parens : list paren) (i : nat) : list paren :=
  match p1 with
  | 0 => parens
  | S p =>
      match parens !! p with
      | Some b =>
          if falsy (end_ b) then <[p := set_end b (i + 1)]> parens
          else close_last p parens i
      | None => parens
      end
  end.

(** The outer loop from index [i] on, over the tokens not yet read. *)
Fixpoint scan (rest : list token) (i : nat) (parens : list paren) (level : Z)
  : outcome (list paren) :=
  match rest with
  | [] => Return parens
  | t :: rest' =>
      if String.eqb (type t) "paren_open" then
        let level := (level + 1)%Z in
        scan rest' (S i) (parens ++ [Paren i None level]) level
      else if String.eqb (type t) "paren_close" then
        let level := (level - 1)%Z in
        if (level <? 0)%Z then Throw (BadParenthesesSyntax i)
        else scan rest' (S i) (close_last (length parens) parens i) level
      else scan rest' (S i) parens level
  end.

Definition parentheses (tokens : list token) : outcome (list paren) :=
  scan tokens 0 [] 0%Z.

(** ** Vocabulary of the specification *)

Definition tk (ty : string) : token := Token ty "" 0.

(** What one token adds to the running depth. *)
Definition delta (t : token) : Z :=
  if String.eqb (type t) "paren_open" then 1%Z
  else if String.eqb (type t) "paren_close" then (-1)%Z
  else 0%Z.

(** Opening minus closing parentheses. *)
Fixpoint depth (ts : list token) : Z :=
  match ts with
  | [] => 0%Z
  | t :: ts' => (delta t + depth ts')%Z
  end.

(** The running depth after the first [k] tokens. *)
Definition depth_at (tokens : list token) (k : nat) : Z := depth (take k tokens).

Definition is_open (tokens : list token) (i : nat) : Prop :=
  exists t, tokens !! i = Some t /\ type t = "paren_open".

Definition is_close (tokens : list token) (i : nat) : Prop :=
  exists t, tokens !! i = Some t /\ type t = "paren_close".

Definition never_negative (tokens : list token) : Prop :=
  forall k, (0 <= depth_at tokens k)%Z.

Definition balanced (tokens : list token) : Prop :=
  never_negative tokens /\ depth tokens = 0%Z.

(** Token [i] is an excess closing parenthesis: the depth has stayed
    non-negative up to it and is zero just before it. *)
Definition excess_close (tokens : list token) (i : nat) : Prop :=
  is_close tokens i /\ depth_at tokens i = 0%Z /\
  forall k, k <= i -> (0 <= depth_at tokens k)%Z.

(** LIFO matching: the closing token at [c] matches the opening token at
    [s] when [c] is the first position after [s] at which the depth is
    back to what it was before [s]. *)
Definition matching (tokens : list token) (s c : nat) : Prop :=
  s < c /\ is_close tokens c /\
  depth_at tokens (S c) = depth_at tokens s /\
  forall k, s < k <= c -> (depth_at tokens s < depth_at tokens k)%Z.

(** The nesting depth of the opening token at [s] counts that token. *)
Definition nesting_depth (tokens : list token) (s : nat) : Z :=
  depth_at tokens (S s).

(** Half-open token ranges [start, end) of two closed blocks. *)
Definition disjoint_blocks (b1 b2 : paren) : Prop :=
  exists e1 e2, end_ b1 = Some e1 /\ end_ b2 = Some e2 /\
    (e1 <= start b2 \/ e2 <= start b1).

Definition strictly_contains (b1 b2 : paren) : Prop :=
  exists e1 e2, end_ b1 = Some e1 /\ end_ b2 = Some e2 /\
    start b1 < start b2 /\ e2 < e1.

(** Indices of the opening tokens, in increasing order, counted from [i]. *)
Fixpoint open_indices (ts : list token) (i : nat) : list nat :=
  match ts with
  | [] => []
  | t :: ts' =>
      if String.eqb (type t) "paren_open" then i :: open_indices ts' (S i)
      else open_indices ts' (S i)
  end.

(** What the scan maintains after reading the tokens [pre]. *)
Record scan_inv (pre : list token) (parens : list paren) (lvl : Z) : Prop := {
  inv_level : lvl = depth pre;
  inv_starts : start <$> parens = open_indices pre 0;
  inv_depth : forall b, b ∈ parens -> level b = depth_at pre (S (start b));
  inv_closed : forall b e, b ∈ parens -> end_ b = Some e ->
    exists c, e = S c /\ matching pre (start b) c;
  inv_pending : forall b, b ∈ parens -> end_ b = None ->
    forall k, start b < k <= length pre ->
      (depth_at pre (start b) < depth_at pre k)%Z;
  inv_stack : exists n, lvl = Z.of_nat n /\
    level <$> filter (fun b => end_ b = None) parens = Z.of_nat <$> seq 1 n
}.

(** ** evaluator.js: numbers and values *)

(** The Number value of [num/den] with the given sign: the quotient
    rounded to the nearest binary64 value, ties to even. *)
Definition round_ratio (neg : bool) (num den : positive) : float :=
  SF2Prim (SFdiv prec emax (S754_finite neg num 0) (S754_finite false den 0)).

(** The Number value of the decimal [m * 10^e] with the given sign, for
    [0 <= m]; a zero keeps the sign. *)
Definition number_of_decimal (neg : bool) (m e : Z) : float :=
  match m with
  | Zpos p =>
      round_ratio neg (p * Z.to_pos (10 ^ Z.max e 0))
                  (Z.to_pos (10 ^ Z.max (- e) 0))
  | _ => if neg then neg_zero else zero
  end.

(** White space that [parseInt] and [parseFloat] skip, within ASCII:
    TAB, LF, VT, FF, CR and SP. *)
Definition is_white (c : ascii) : bool :=
  let n := nat_of_ascii c in
  ((9 <=? n)%nat && (n <=? 13)%nat) || (n =? 32)%nat.

Fixpoint trim_start (s : string) : string :=
  match s with
  | String c r => if is_white c then trim_start r else s
  | EmptyString => s
  end.

Definition digit (c : ascii) : option Z :=
  let n := nat_of_ascii c in
  if (48 <=? n)%nat && (n <=? 57)%nat then Some (Z.of_nat (n - 48)) else None.

(** Reads the longest run of decimal digits at the head of [s]: the value
    accumulated on top of [acc], the number of digits on top of [n], and
    what follows the run. *)
Fixpoint digits (s : string) (acc : Z) (n : nat) : Z * nat * string :=
  match s with
  | String c r =>
      match digit c with
      | Some d => digits r (10 * acc + d) (S n)
      | None => (acc, n, s)
      end
  | EmptyString => (acc, n, s)
  end.

(** An optional sign: whether it is [-], and what follows it. *)
Definition sign (s : string) : bool * string :=
  match s with
  | String "-" r => (true, r)
  | String "+" r => (false, r)
  | _ => (false, s)
  end.

(** [parseInt(string, 10)]: white space, a sign, then the longest run of
    decimal digits; [NaN] when the run is empty. *)
Definition parseInt (string : string) : float :=
  let '(neg, s) := sign (trim_start string) in
  let '(mathInt, n, _) := digits s 0 0 in
  if (n =? 0)%nat then nan else number_of_decimal neg mathInt 0.

(** The value of an exponent part at the head of [s], 0 when there is
    none: [e] or [E], a sign, and at least one digit. *)
Definition exponent (s : string) : Z :=
  match s with
  | String c r =>
      if Ascii.eqb c "e" || Ascii.eqb c "E" then
        let '(neg, r) := sign r in
        let '(x, n, _) := digits r 0 0 in
        if (n =? 0)%nat then 0%Z else if neg then (- x)%Z else x
      else 0%Z
  | EmptyString => 0%Z
  end.

(** [parseFloat(string)] (the source passes a second argument, which
    [parseFloat] does not read): white space, then the longest prefix that
    is a decimal literal; [NaN] when there is none. *)
Definition parseFloat (string : string) : float :=
  let '(neg, s) := sign (trim_start string) in
  if String.prefix "Infinity" s then (if neg then neg_infinity else infinity)
  else
    let '(m1, n1, r1) := digits s 0 0 in
    match r1 with
    | String "." r =>
        let '(m2, n2, r2) := digits r m1 0 in
        if (n1 =? 0)%nat && (n2 =? 0)%nat then nan
        else number_of_decimal neg m2 (exponent r2 - Z.of_nat n2)
    | _ =>
        if (n1 =? 0)%nat then nan else number_of_decimal neg m1 (exponent r1)
    end.

(** What a walk of the tree can yield: a Number; [undefined]; a member
    that the mapping inherits from [Object.prototype], which is a function
    or, for [__proto__], the prototype itself; or the string that [+]
    makes of its two operands when one of them is such a member or such
    a string. *)
Inductive jsval :=
  | JNum (x : float)
  | JUndefined
  | JInherited (name : string)
  | JConcat (a b : jsval).

(** [ToPrimitive] makes a string of the value: it is an object or a
    string. *)
Definition stringy (v : jsval) : bool :=
  match v with
  | JInherited _ | JConcat _ _ => true
  | JNum _ | JUndefined => false
  end.

(** [ToNumber], applied by the arithmetic operators to their operands.
    The strings at hand hold the text of a function or [[object Object]],
    so they are no numeric literal and convert to [NaN]. *)
Definition ToNumber (v : jsval) : float :=
  match v with
  | JNum x => x
  | JUndefined => nan
  | JInherited _ => nan
  | JConcat _ _ => nan
  end.

Definition js_neg (a : jsval) : jsval := JNum (- ToNumber a)%float.

(** [a + b] concatenates as soon as one operand is a string after
    [ToPrimitive], and adds Numbers otherwise. *)
Definition js_add (a b : jsval) : jsval :=
  if stringy a || stringy b then JConcat a b
  else JNum (ToNumber a + ToNumber b)%float.
Definition js_sub (a b : jsval) : jsval := JNum (ToNumber a - ToNumber b)%float.
Definition js_mul (a b : jsval) : jsval := JNum (ToNumber a * ToNumber b)%float.
Definition js_div (a b : jsval) : jsval := JNum (ToNumber a / ToNumber b)%float.

(** ** evaluator.js: trees and bindings *)

(** Modelled from the spec: the AST node that parse.js builds (parse.js is
    not part of the sources), with the fields the evaluators read:
    [child[0]] of a block, [operator] and [child] of a unary operator,
    [operator], [left] and [right] of a binary operator, [value] of a
    literal, [name] of a variable. Operators stay strings, as the
    evaluators compare them. *)
Inductive node :=
  | block (child : node)
  | unary_operator (operator : string) (child : node)
  | binary_operator (operator : string) (left right : node)
  | literal (value : string)
  | variable (name : string).

(** The mapping from names to numbers the caller passes: a plain object,
    given by its own enumerable properties; its prototype is
    [Object.prototype]. *)
Abbreviation bindings := (gmap string float).

(** The names of the members of [Object.prototype]. *)
Definition inherited (name : string) : bool :=
  bool_decide (name ∈ ["constructor"; "hasOwnProperty"; "isPrototypeOf";
                       "propertyIsEnumerable"; "toLocaleString"; "toString";
                       "valueOf"; "__proto__"; "__defineGetter__";
                       "__defineSetter__"; "__lookupGetter__";
                       "__lookupSetter__"]).

(** [vars[name]]: the own property, else the inherited member, else
    [undefined]. *)
Definition get (vars : bindings) (name : string) : jsval :=
  match vars !! name with
  | Some x => JNum x
  | None => if inherited name then JInherited name else JUndefined
  end.

(** [variables.hasOwnProperty(v)]: the method is looked up on the mapping
    itself, so a key named [hasOwnProperty] stands in its way, and calling
    the Number bound to it is a TypeError. *)
Definition hasOwnProperty (vars : bindings) (v : string) : outcome bool :=
  match vars !! "hasOwnProperty" with
  | Some _ => Throw HasOwnPropertyNotAFunction
  | None => Return (bool_decide (is_Some (vars !! v)))
  end.

(** What evaluator.js takes from outside: the three modules it requires,
    and the exponentiation of Numbers, which ECMAScript leaves to the
    implementation to approximate. *)
Class Runtime := {
  pow : float -> float -> float;
  lexer : string -> outcome (list token * list string);
  syntax_check : list token -> outcome (list token);
  parse : list token -> outcome node
}.

(** The [fn] that [traverse] attaches to a node: a function of the
    bindings, which can throw. *)
Definition closure := bindings -> outcome jsval.

(** [f(vars)] for the [fn] field of a node; calling a field that
    [traverse] left unset is a TypeError. *)
Definition call (fn : option closure) (vars : bindings) : outcome jsval :=
  match fn with
  | Some f => f vars
  | None => Throw NotAFunction
  end.

(** What [evaluate] returns: [{ calc, unknowns }]. *)
Record evaluator := Evaluator {
  calc : bindings -> outcome jsval;
  unknowns : list string
}.

Section evaluator.
Context `{Runtime}.

Definition js_pow (a b : jsval) : jsval := JNum (pow (ToNumber a) (ToNumber b)).

(** [traverse] of [evaluate]: the [fn] it leaves on the node, after it
    has gone through the children. A node whose operator matches no
    case gets no [fn]. *)
Fixpoint evaluate_traverse (n : node) : option closure :=
  match n with
  | block child =>
      let child_fn := evaluate_traverse child in
      Some (fun variables => call child_fn variables)
  | unary_operator operator child =>
      let child_fn := evaluate_traverse child in
      if String.eqb operator "+" then
        Some (fun vars => call child_fn vars)
      else if String.eqb operator "-" then
        Some (fun vars => try! x := call child_fn vars in Return (js_neg x))
      else None
  | binary_operator operator l r =>
      let left_fn := evaluate_traverse l in
      let right_fn := evaluate_traverse r in
      let compose (op : jsval -> jsval -> jsval) : option closure :=
        Some (fun vars =>
                try! a := call left_fn vars in
                try! b := call right_fn vars in
                Return (op a b)) in
      if String.eqb operator "+" then compose js_add
      else if String.eqb operator "-" then compose js_sub
      else if String.eqb operator "*" then compose js_mul
      else if String.eqb operator "/" then compose js_div
      else if String.eqb operator "^" then compose js_pow
      else None
  | literal value => Some (fun vars => Return (JNum (parseFloat value)))
  | variable name => Some (fun vars => Return (get vars name))
  end.

(** The [for (let v of unknowns)] loop of [calc]. *)
Fixpoint evaluate_for_of (unknowns : list string) (variables : bindings)
  : outcome unit :=
  match unknowns with
  | [] => Return tt
  | v :: unknowns' =>
      try! has := hasOwnProperty variables v in
      if negb has then Throw (MissingValue v)
      else evaluate_for_of unknowns' variables
  end.

(** The [calc] closure, over the [fn] of the tree and [unknowns]. *)
Definition evaluate_calc (fn : option closure) (unknowns : list string)
  (variables : bindings) : outcome jsval :=
  if negb (size variables =? length unknowns)%nat then
    Throw (IncorrectNumberOfValues (length unknowns) (size variables))
  else
    try! _ := evaluate_for_of unknowns variables in
    call fn variables.

Definition evaluate (expression : string) : outcome evaluator :=
  try! (tokens, unknowns) := lexer expression in
  try! tokens := syntax_check tokens in
  try! parse_tree := parse tokens in
  let fn := evaluate_traverse parse_tree in
  Return {| calc := evaluate_calc fn unknowns; unknowns := unknowns |}.

(** [traverse] of [fastEvaluate]: a branch that returns nothing yields
    [undefined]. *)
Fixpoint fastEvaluate_traverse (n : node) (values : bindings) : jsval :=
  match n with
  | block child => fastEvaluate_traverse child values
  | unary_operator operator child =>
      if String.eqb operator "+" then fastEvaluate_traverse child values
      else if String.eqb operator "-" then
        js_neg (fastEvaluate_traverse child values)
      else JUndefined
  | binary_operator operator l r =>
      if String.eqb operator "+" then
        js_add (fastEvaluate_traverse l values)
               (fastEvaluate_traverse r values)
      else if String.eqb operator "-" then
        js_sub (fastEvaluate_traverse l values)
               (fastEvaluate_traverse r values)
      else if String.eqb operator "*" then
        js_mul (fastEvaluate_traverse l values)
               (fastEvaluate_traverse r values)
      else if String.eqb operator "/" then
        js_div (fastEvaluate_traverse l values)
               (fastEvaluate_traverse r values)
      else JUndefined
  | literal value => JNum (parseInt value)
  | variable name => get values name
  end.

(** The [for (let v of unknowns)] loop of [fastEvaluate]. *)
Fixpoint fastEvaluate_for_of (unknowns : list string) (values : bindings)
  : outcome unit :=
  match unknowns with
  | [] => Return tt
  | v :: unknowns' =>
      try! has := hasOwnProperty values v in
      if negb has then Throw (MissingValue v)
      else fastEvaluate_for_of unknowns' values
  end.

Definition fastEvaluate (expression : string) (values : bindings)
  : outcome jsval :=
  try! (tokens, unknowns) := lexer expression in
  try! tokens := syntax_check tokens in
  try! parse_tree := parse tokens in
  if negb (size values =? length unknowns)%nat then
    Throw (IncorrectNumberOfValues (length unknowns) (size values))
  else
    try! _ := fastEvaluate_for_of unknowns values in
    Return (fastEvaluate_traverse parse_tree values).

(** *** Vocabulary of the specification *)

(** The pipeline accepts [expression], with this tree and these unknowns. *)
Definition accepted (expression : string) (parse_tree : node)
  (unknowns : list string) : Prop :=
  exists tokens tokens',
    lexer expression = Return (tokens, unknowns) /\
    syntax_check tokens = Return tokens' /\
    parse tokens' = Return parse_tree.

(** Following the spec (4.5), the result of evaluating a tree: a literal
    has its parsed numeric value, a variable is looked up in the mapping,
    unary and binary nodes apply their arithmetic operator to the results
    of their children ([^] is exponentiation), a block has the result of
    its child. *)
Fixpoint tree_value (n : node) (vars : bindings) : jsval :=
  match n with
  | block child => tree_value child vars
  | unary_operator operator child =>
      if String.eqb operator "-" then js_neg (tree_value child vars)
      else tree_value child vars
  | binary_operator operator l r =>
      let a := tree_value l vars in
      let b := tree_value r vars in
      if String.eqb operator "+" then js_add a b
      else if String.eqb operator "-" then js_sub a b
      else if String.eqb operator "*" then js_mul a b
      else if String.eqb operator "/" then js_div a b
      else js_pow a b
  | literal value => JNum (parseFloat value)
  | variable name => get vars name
  end.
End evaluator.

(** Following the spec (3), the operators a tree built by the parser
    carries: [+ -] on unary nodes, [+ - * / ^] on binary nodes. *)
Fixpoint well_formed (n : node) : bool :=
  match n with
  | block child => well_formed child
  | unary_operator operator child =>
      (String.eqb operator "+" || String.eqb operator "-") && well_formed child
  | binary_operator operator l r =>
      (String.eqb operator "+" || String.eqb operator "-" ||
       String.eqb operator "*" || String.eqb operator "/" ||
       String.eqb operator "^")
      && well_formed l && well_formed r
  | literal _ => true
  | variable _ => true
  end.

(** The names of the variable nodes of a tree. *)
Fixpoint variables_of (n : node) : list string :=
  match n with
  | block child => variables_of child
  | unary_operator _ child => variables_of child
  | binary_operator _ l r => variables_of l ++ variables_of r
  | literal _ => []
  | variable name => [name]
  end.

(** No binary node of the tree is an exponentiation. *)
Fixpoint power_free (n : node) : bool :=
  match n with
  | block child => power_free child
  | unary_operator _ child => power_free child
  | binary_operator operator l r =>
      negb (String.eqb operator "^") && power_free l && power_free r
  | literal _ => true
  | variable _ => true
  end.

(** Both parses of every literal of the tree give the same Number. *)
Fixpoint literals_agree (n : node) : Prop :=
  match n with
  | block child => literals_agree child
  | unary_operator _ child => literals_agree child
  | binary_operator _ l r => literals_agree l /\ literals_agree r
  | literal value => parseInt value = parseFloat value
  | variable _ => True
  end.

(** The integer a Number is, if it is a non-negative one. *)
Definition natural_of_float (y : float) : option N :=
  match Prim2SF y with
  | S754_zero _ => Some 0%N
  | S754_finite false m e =>
      match e with
      | Zneg k =>
          if (Z.pos m mod 2 ^ Z.pos k =? 0)%Z
          then Some (Z.to_N (Z.pos m / 2 ^ Z.pos k)) else None
      | _ => Some (Z.to_N (Z.pos m * 2 ^ e))
      end
  | _ => None
  end.

(** A power with a natural exponent, by repeated multiplication: the
    exact power whenever that is a Number, as for small integers. *)
Definition natural_power (x y : float) : float :=
  match natural_of_float y with
  | Some n => N.iter n (PrimFloat.mul x) 1%float
  | None => nan
  end.

(** A front end that accepts every expression with one fixed result; it
    serves to run the evaluators on a given tree. Its exponentiation is
    [natural_power]. *)
Definition fixed_runtime (parse_tree : node) (unknowns : list string) : Runtime :=
  {| pow := natural_power;
     lexer := fun _ => Return ([], unknowns);
     syntax_check := fun tokens => Return tokens;
     parse := fun _ => Return parse_tree |}.

(** What a division by zero produces: an infinity or [NaN]. *)
Definition infinite_or_nan (v : jsval) : Prop :=
  v = JNum infinity \/ v = JNum neg_infinity \/ v = JNum nan.

(** Following the spec (4.5), the error of a binding mapping: the arity
    error when the number of keys is not the number of unknowns, else the
    missing-variable error for the first unknown that is not a key. *)
Definition binding_error (unknowns : list string) (values : bindings)
  : option error :=
  if decide (size values = length unknowns) then
    MissingValue <$> head (filter (fun v => values !! v = None) unknowns)
  else Some (IncorrectNumberOfValues (length unknowns) (size values)).

(** The presence check can run: there is no unknown to look for, or no
    key of the mapping stands in the way of [hasOwnProperty]. *)
Definition presence_check_runs (unknowns : list string) (values : bindings)
  : Prop :=
  unknowns = [] \/ values !! "hasOwnProperty" = None.

(** The error of the checks that [calc] and [fastEvaluate] make, read off
    their code: the arity error when the counts differ; else, if there is
    an unknown to look for, the TypeError of a shadowed [hasOwnProperty],
    or the missing-variable error for the first unknown that is not a
    key. *)
Definition checks_error (unknowns : list string) (values : bindings)
  : option error :=
  if decide (size values = length unknowns) then
    match unknowns with
    | [] => None
    | _ :: _ =>
        if decide (is_Some (values !! "hasOwnProperty"))
        then Some HasOwnPropertyNotAFunction
        else MissingValue <$> head (filter (fun v => values !! v = None) unknowns)
    end
  else Some (IncorrectNumberOfValues (length unknowns) (size values)).

(** A string of decimal digits only. *)
Fixpoint all_digits (s : string) : bool :=
  match s with
  | String c r => bool_decide (is_Some (digit c)) && all_digits r
  | EmptyString => true
  end.

(** The integer that a string of decimal digits denotes, on top of [acc]. *)
Fixpoint decimal_value (ds : string) (acc : Z) : Z :=
  match ds with
  | String c r =>
      match digit c with
      | Some d => decimal_value r (10 * acc + d)
      | None => acc
      end
  | EmptyString => acc
  end.

(** [x + y * 2], as the parser builds it. *)
Definition x_plus_y_times_2 : node :=
  binary_operator "+" (variable "x")
    (binary_operator "*" (variable "y") (literal "2")).

(** Every literal of the tree is a non-empty string of decimal digits. *)
Fixpoint integer_literals (n : node) : bool :=
  match n with
  | block child => integer_literals child
  | unary_operator _ child => integer_literals child
  | binary_operator _ l r => integer_literals l && integer_literals r
  | literal value => all_digits value && negb (String.eqb value "")
  | variable _ => true
  end.

(** ** Vocabulary for further properties *)

(** The closing token of an opening one, found by counting: [rest] is
    what follows, [c] the index of its head, [d] the depth since the
    opening token, itself included. *)
Fixpoint find_close (rest : list token) (c : nat) (d : Z) : option nat :=
  match rest with
  | [] => None
  | t :: rest' =>
      let d' := (d + delta t)%Z in
      if (d' =? 0)%Z then Some c else find_close rest' (S c) d'
  end.

(** The block of the opening token at [s], read off the tokens. *)
Definition expected_paren (tokens : list token) (s : nat) : paren :=
  {| start := s;
     end_ := (fun c => c + 1) <$> find_close (drop (S s) tokens) (S s) 1;
     level := depth_at tokens (S s) |}.

Definition expected_parens (tokens : list token) : list paren :=
  expected_paren tokens <$> open_indices tokens 0.

(** A block seen [n] tokens further right and [dl] levels deeper. *)
Definition embed_paren (n : nat) (dl : Z) (b : paren) : paren :=
  {| start := n + start b;
     end_ := (fun e => n + e) <$> end_ b;
     level := (dl + level b)%Z |}.

Definition embed_error (n : nat) (e : error) : error :=
  match e with
  | BadParenthesesSyntax i => BadParenthesesSyntax (n + i)
  | _ => e
  end.

(** The front end fails on [expression] with the error [e]: the lexer
    throws it, or the syntax check does on the tokens of the lexer, or the
    parser does on the checked tokens. *)
Definition front_end_throws `{Runtime} (expression : string) (e : error) : Prop :=
  lexer expression = Throw e \/
  exists tokens us,
    lexer expression = Return (tokens, us) /\
    (syntax_check tokens = Throw e \/
     exists tokens',
       syntax_check tokens = Return tokens' /\ parse tokens' = Throw e).

(** What the direct walk yields once an exponentiation is in the way:
    [undefined], or the Number [NaN]. *)
Definition not_a_number (v : jsval) : Prop := v = JUndefined \/ v = JNum nan.

(** * Proofs: parentheses.js *)

Section depth_facts.
Implicit Types (ts pre rest : list token) (t : token).

Lemma depth_app ts1 ts2 : depth (ts1 ++ ts2) = (depth ts1 + depth ts2)%Z.
Proof. induction ts1 as [|t ts1 IH]; simpl; [done | rewrite IH; lia]. Qed.

Lemma depth_at_all ts k : length ts <= k -> depth_at ts k = depth ts.
Proof. intros H. unfold depth_at. by rewrite take_ge. Qed.

Lemma depth_at_app_le pre rest k :
  k <= length pre -> depth_at (pre ++ rest) k = depth_at pre k.
Proof. intros H. unfold depth_at. by rewrite take_app_le. Qed.

Lemma depth_at_S ts k t :
  ts !! k = Some t -> depth_at ts (S k) = (depth_at ts k + delta t)%Z.
Proof.
  intros H. unfold depth_at. rewrite (take_S_r _ _ _ H), depth_app. simpl. lia.
Qed.

Lemma depth_at_0 ts : depth_at ts 0 = 0%Z.
Proof. reflexivity. Qed.

Lemma delta_open t : type t = "paren_open" -> delta t = 1%Z.
Proof. intros H. unfold delta. by rewrite H. Qed.

Lemma delta_close t : type t = "paren_close" -> delta t = (-1)%Z.
Proof. intros H. unfold delta. by rewrite H. Qed.

Lemma is_open_lt ts i : is_open ts i -> i < length ts.
Proof. intros (t & H & _). by eapply lookup_lt_Some. Qed.

Lemma is_close_lt ts i : is_close ts i -> i < length ts.
Proof. intros (t & H & _). by eapply lookup_lt_Some. Qed.

Lemma is_open_app pre rest i : is_open pre i -> is_open (pre ++ rest) i.
Proof. intros (t & H & Ht). exists t. split; [by apply lookup_app_l_Some | done]. Qed.

Lemma is_close_app pre rest i : is_close pre i -> is_close (pre ++ rest) i.
Proof. intros (t & H & Ht). exists t. split; [by apply lookup_app_l_Some | done]. Qed.

Lemma depth_at_open ts s :
  is_open ts s -> depth_at ts (S s) = (depth_at ts s + 1)%Z.
Proof. intros (t & H & Ht). by rewrite (depth_at_S _ _ _ H), delta_open. Qed.

Lemma matching_app pre rest s c :
  matching pre s c -> matching (pre ++ rest) s c.
Proof.
  intros (Hsc & Hc & Hd & Hk). pose proof (is_close_lt _ _ Hc) as Hlt.
  repeat split; [lia | by apply is_close_app | | ].
  - rewrite !depth_at_app_le by lia. done.
  - intros k Hks. rewrite !depth_at_app_le by lia. by apply Hk.
Qed.

Lemma open_indices_app ts1 ts2 i :
  open_indices (ts1 ++ ts2) i
  = open_indices ts1 i ++ open_indices ts2 (i + length ts1).
Proof.
  revert i. induction ts1 as [|t ts1 IH]; intros i; simpl.
  - by rewrite Nat.add_0_r.
  - rewrite IH, <- Nat.add_succ_comm. by destruct (String.eqb _ _).
Qed.

Lemma elem_of_open_indices ts i x :
  x ∈ open_indices ts i <-> exists k, x = i + k /\ is_open ts k.
Proof.
  revert i. induction ts as [|t ts IH]; intros i; simpl.
  - split; [by intros ?%elem_of_nil | ].
    intros (k & _ & (t & H & _)). by rewrite lookup_nil in H.
  - destruct (String.eqb_spec (type t) "paren_open") as [Ht|Ht].
    + rewrite elem_of_cons, IH. split.
      * intros [-> | (k & -> & Hk)].
        -- exists 0. split; [lia|]. by exists t.
        -- exists (S k). split; [lia|]. done.
      * intros (k & -> & (t' & H & Ht')). destruct k as [|k].
        -- left. lia.
        -- right. exists k. split; [lia|]. by exists t'.
    + rewrite IH. split.
      * intros (k & -> & Hk). exists (S k). split; [lia | done].
      * intros (k & -> & (t' & H & Ht')). destruct k as [|k].
        -- simpl in H. congruence.
        -- exists k. split; [lia|]. by exists t'.
Qed.

Lemma open_indices_NoDup ts i : NoDup (open_indices ts i).
Proof.
  revert i. induction ts as [|t ts IH]; intros i; simpl; [constructor|].
  destruct (String.eqb _ _); [|done].
  constructor; [|done]. rewrite elem_of_open_indices. intros (k & ? & _). lia.
Qed.
End depth_facts.

Section close_last_facts.
Implicit Types (P : list paren) (b : paren).

(** The inner loop closes the last block whose [end] is falsy. *)
Lemma close_last_found P1 b P2 P3 i :
  falsy (end_ b) = true ->
  Forall (fun x => falsy (end_ x) = false) P2 ->
  close_last (length P1 + 1 + length P2) (P1 ++ b :: P2 ++ P3) i
  = P1 ++ set_end b (i + 1) :: P2 ++ P3.
Proof.
  intros Hb. revert P3.
  induction P2 as [|x P2 IH] using rev_ind; intros P3 HP2.
  - simpl. rewrite Nat.add_0_r, Nat.add_1_r. simpl.
    rewrite list_lookup_middle by done. rewrite Hb.
    replace (length P1) with (length P1 + 0) at 1 by lia.
    by rewrite insert_app_r.
  - rewrite Forall_app, Forall_singleton in HP2. destruct HP2 as [HP2 Hx].
    rewrite length_app. simpl.
    replace (length P1 + 1 + (length P2 + 1))
      with (S (length P1 + 1 + length P2)) by lia.
    rewrite <- !app_assoc. simpl.
    assert ((P1 ++ b :: P2 ++ x :: P3) !! (length P1 + 1 + length P2) = Some x)
      as Hlook.
    { replace (P1 ++ b :: P2 ++ x :: P3) with ((P1 ++ b :: P2) ++ x :: P3)
        by (by rewrite <- app_assoc).
      apply list_lookup_middle. rewrite length_app. simpl. lia. }
    rewrite Hlook, Hx. by apply IH.
Qed.

Lemma close_last_none n P i :
  Forall (fun x => falsy (end_ x) = false) P -> close_last n P i = P.
Proof.
  intros HP. induction n as [|n IH]; simpl; [done|].
  destruct (P !! n) as [b|] eqn:Hb; [|done].
  rewrite Forall_forall in HP.
  rewrite (HP b) by (apply list_elem_of_lookup; eauto). done.
Qed.

(** Either every block is closed, or there is a last pending one. *)
Lemma last_pending P :
  Forall (fun x => end_ x <> None) P \/
  exists P1 b P2, P = P1 ++ b :: P2 /\ end_ b = None /\
                  Forall (fun x => end_ x <> None) P2.
Proof.
  induction P as [|x P IH] using rev_ind; [by left|].
  destruct (end_ x) as [e|] eqn:Hx.
  - destruct IH as [IH | (P1 & b & P2 & -> & Hb & HP2)].
    + left. apply Forall_app. split; [done|].
      apply Forall_singleton. congruence.
    + right. exists P1, b, (P2 ++ [x]). split; [by rewrite <- app_assoc|].
      split; [done|]. apply Forall_app. split; [done|].
      apply Forall_singleton. congruence.
  - right. exists P, x, []. by repeat split.
Qed.

Lemma filter_pending_closed P :
  Forall (fun x => end_ x <> None) P ->
  filter (fun b => end_ b = None) P = [].
Proof.
  induction 1 as [|x P Hx _ IH]; [done|].
  by rewrite filter_cons_False.
Qed.

Lemma pending_closed_filter P :
  filter (fun b => end_ b = None) P = [] ->
  Forall (fun x => end_ x <> None) P.
Proof.
  intros H. apply Forall_forall. intros x Hx Hn.
  eapply filter_nil_not_elem_of; [exact H | exact Hn | exact Hx].
Qed.
End close_last_facts.

Section scan_invariant.
Implicit Types (pre rest : list token) (P : list paren) (b : paren) (t : token).

Lemma scan_inv_init : scan_inv [] [] 0.
Proof.
  split; try done.
  - intros b Hb. by apply elem_of_nil in Hb.
  - intros b e Hb. by apply elem_of_nil in Hb.
  - intros b Hb. by apply elem_of_nil in Hb.
  - by exists 0.
Qed.

Lemma scan_inv_open_at pre P L b :
  scan_inv pre P L -> b ∈ P -> is_open pre (start b).
Proof.
  intros I Hb. apply (list_elem_of_fmap_2 start) in Hb.
  rewrite (inv_starts _ _ _ I) in Hb.
  by apply elem_of_open_indices in Hb as (k & -> & Hk).
Qed.

Lemma delta_other t :
  type t <> "paren_open" -> type t <> "paren_close" -> delta t = 0%Z.
Proof.
  intros H1 H2. unfold delta.
  apply String.eqb_neq in H1, H2. by rewrite H1, H2.
Qed.

Lemma depth_snoc pre t : depth (pre ++ [t]) = (depth pre + delta t)%Z.
Proof. rewrite depth_app. simpl. lia. Qed.

Lemma depth_at_snoc_last pre t :
  depth_at (pre ++ [t]) (S (length pre)) = (depth pre + delta t)%Z.
Proof.
  rewrite depth_at_all by (rewrite length_app; simpl; lia). apply depth_snoc.
Qed.

Lemma depth_at_snoc_length pre t :
  depth_at (pre ++ [t]) (length pre) = depth pre.
Proof. rewrite depth_at_app_le by lia. by apply depth_at_all. Qed.

(** A pending block stays pending when the depth after the next token
    is still above the depth before the block. *)
Lemma pending_extend pre t s :
  s < length pre ->
  (forall k, s < k <= length pre -> (depth_at pre s < depth_at pre k)%Z) ->
  (depth_at pre s < depth pre + delta t)%Z ->
  forall k, s < k <= length (pre ++ [t]) ->
    (depth_at (pre ++ [t]) s < depth_at (pre ++ [t]) k)%Z.
Proof.
  intros Hs Hold Hnew k Hk. rewrite length_app in Hk. simpl in Hk.
  rewrite (depth_at_app_le pre [t] s) by lia.
  destruct (decide (k <= length pre)) as [Hle|Hgt].
  - rewrite depth_at_app_le by lia. apply Hold. lia.
  - replace k with (S (length pre)) by lia. by rewrite depth_at_snoc_last.
Qed.

Lemma pending_below_top pre P L b :
  scan_inv pre P L -> b ∈ P -> end_ b = None ->
  (depth_at pre (start b) < depth pre)%Z.
Proof.
  intros I Hb He. pose proof (is_open_lt _ _ (scan_inv_open_at _ _ _ _ I Hb)).
  rewrite <- (depth_at_all pre (length pre)) by lia.
  apply (inv_pending _ _ _ I b Hb He). lia.
Qed.

Lemma scan_inv_other pre P L t :
  type t <> "paren_open" -> type t <> "paren_close" ->
  scan_inv pre P L -> scan_inv (pre ++ [t]) P L.
Proof.
  intros H1 H2 I. pose proof (delta_other t H1 H2) as Hd.
  split.
  - rewrite depth_snoc, Hd, (inv_level _ _ _ I). lia.
  - rewrite open_indices_app. simpl. apply String.eqb_neq in H1.
    rewrite H1, app_nil_r. apply I.
  - intros b Hb. pose proof (is_open_lt _ _ (scan_inv_open_at _ _ _ _ I Hb)).
    rewrite depth_at_app_le by lia. by apply I.
  - intros b e Hb He. destruct (inv_closed _ _ _ I b e Hb He) as (c & -> & Hm).
    exists c. split; [done|]. by apply matching_app.
  - intros b Hb He.
    pose proof (is_open_lt _ _ (scan_inv_open_at _ _ _ _ I Hb)).
    apply pending_extend; [done | by apply I | ].
    pose proof (pending_below_top _ _ _ _ I Hb He). lia.
  - apply I.
Qed.

Lemma scan_inv_open pre P L t :
  type t = "paren_open" ->
  scan_inv pre P L ->
  scan_inv (pre ++ [t]) (P ++ [Paren (length pre) None (L + 1)]) (L + 1).
Proof.
  intros Ht I. pose proof (delta_open t Ht) as Hd.
  pose proof (inv_level _ _ _ I) as HL.
  split.
  - rewrite depth_snoc, Hd. lia.
  - rewrite fmap_app, open_indices_app. simpl.
    rewrite Ht. simpl. f_equal. apply I.
  - intros b [Hb | ->%list_elem_of_singleton]%elem_of_app.
    + pose proof (is_open_lt _ _ (scan_inv_open_at _ _ _ _ I Hb)).
      rewrite depth_at_app_le by lia. by apply I.
    + simpl. rewrite depth_at_snoc_last. lia.
  - intros b e [Hb | ->%list_elem_of_singleton]%elem_of_app He; [|done].
    destruct (inv_closed _ _ _ I b e Hb He) as (c & -> & Hm).
    exists c. split; [done|]. by apply matching_app.
  - intros b [Hb | ->%list_elem_of_singleton]%elem_of_app He.
    + pose proof (is_open_lt _ _ (scan_inv_open_at _ _ _ _ I Hb)).
      apply pending_extend; [done | by apply I | ].
      pose proof (pending_below_top _ _ _ _ I Hb He). lia.
    + simpl. intros k Hk. rewrite length_app in Hk. simpl in Hk.
      replace k with (S (length pre)) by lia.
      rewrite depth_at_snoc_last, depth_at_snoc_length. lia.
  - destruct (inv_stack _ _ _ I) as (n & Hn & Hlv).
    exists (S n). split; [lia|].
    rewrite filter_app, fmap_app, Hlv, seq_S, fmap_app. f_equal.
    rewrite filter_cons_True by done. simpl. f_equal. lia.
Qed.
Lemma closed_not_falsy pre P L b :
  scan_inv pre P L -> b ∈ P -> end_ b <> None -> falsy (end_ b) = false.
Proof.
  intros I Hb He. destruct (end_ b) as [e|] eqn:Heq; [|done].
  by destruct (inv_closed _ _ _ I b e Hb Heq) as (c & -> & _).
Qed.

Lemma scan_inv_close pre P L t :
  type t = "paren_close" -> (0 <= L - 1)%Z ->
  scan_inv pre P L ->
  scan_inv (pre ++ [t]) (close_last (length P) P (length pre)) (L - 1).
Proof.
  intros Ht HL I. pose proof (delta_close t Ht) as Hd.
  pose proof (inv_level _ _ _ I) as HLd.
  destruct (inv_stack _ _ _ I) as (n & Hn & Hlv).
  destruct n as [|m]; [lia|].
  destruct (last_pending P) as [Hall | (P1 & b & P2 & HP & Hb & HP2)].
  { by rewrite (filter_pending_closed _ Hall) in Hlv. }
  assert (forall x, x ∈ P1 -> x ∈ P) as Hin1.
  { intros x Hx. rewrite HP. apply elem_of_app. by left. }
  assert (forall x, x ∈ P2 -> x ∈ P) as Hin2.
  { intros x Hx. rewrite HP. apply elem_of_app. right. by apply elem_of_cons; right. }
  assert (b ∈ P) as Hinb.
  { rewrite HP. apply elem_of_app. right. by apply elem_of_cons; left. }
  (* the pending levels are 1..m below the last pending block, at level m+1 *)
  rewrite HP, filter_app, filter_cons_True, (filter_pending_closed _ HP2) in Hlv
    by done.
  rewrite seq_S, !fmap_app in Hlv. simpl in Hlv.
  apply app_inj_tail in Hlv as [Hlv1 Hlvb].
  (* what the inner loop returns *)
  assert (close_last (length P) P (length pre)
          = P1 ++ set_end b (S (length pre)) :: P2) as ->.
  { pose proof (close_last_found P1 b P2 [] (length pre)) as Hcl.
    rewrite !app_nil_r in Hcl.
    replace (length P) with (length P1 + 1 + length P2)
      by (rewrite HP, length_app; simpl; lia).
    rewrite <- (Nat.add_1_r (length pre)), HP.
    apply Hcl; [by rewrite Hb|].
    apply Forall_forall. intros x Hx.
    apply (closed_not_falsy _ _ _ _ I); [by apply Hin2|].
    rewrite Forall_forall in HP2. by apply HP2. }
  pose proof (scan_inv_open_at _ _ _ _ I Hinb) as Hob.
  pose proof (is_open_lt _ _ Hob) as Hsb.
  pose proof (inv_depth _ _ _ I b Hinb) as Hlb.
  rewrite (depth_at_open _ _ Hob) in Hlb.
  assert (forall x, x ∈ P1 ++ set_end b (S (length pre)) :: P2 ->
            x ∈ P \/ x = set_end b (S (length pre))) as Hcases.
  { intros x [Hx | [-> | Hx]%elem_of_cons]%elem_of_app; auto. }
  split.
  - rewrite depth_snoc, Hd. lia.
  - rewrite open_indices_app. simpl. rewrite Ht. simpl.
    rewrite app_nil_r, <- (inv_starts _ _ _ I), HP, !fmap_app. done.
  - intros x [Hx | ->]%Hcases.
    + pose proof (is_open_lt _ _ (scan_inv_open_at _ _ _ _ I Hx)).
      rewrite depth_at_app_le by lia. by apply I.
    + simpl. rewrite depth_at_app_le by lia. by apply I.
  - intros x e [Hx | ->]%Hcases He.
    + destruct (inv_closed _ _ _ I x e Hx He) as (c & -> & Hm).
      exists c. split; [done|]. by apply matching_app.
    + simpl in He. injection He as <-. exists (length pre). split; [done|].
      simpl. repeat split.
      * done.
      * exists t. split; [by apply list_lookup_middle | done].
      * rewrite depth_at_snoc_last, depth_at_app_le by lia. lia.
      * intros k Hk. rewrite !depth_at_app_le by lia.
        apply (inv_pending _ _ _ I b Hinb Hb). lia.
  - intros x Hx He.
    apply elem_of_app in Hx as [Hx | [-> | Hx]%elem_of_cons].
    + pose proof (scan_inv_open_at _ _ _ _ I (Hin1 _ Hx)) as Hox.
      apply pending_extend; [by apply is_open_lt | by apply I; auto | ].
      assert (level x ∈ level <$> filter (fun b => end_ b = None) P1) as Hlx.
      { apply list_elem_of_fmap_2. by apply list_elem_of_filter. }
      rewrite Hlv1 in Hlx.
      apply list_elem_of_fmap in Hlx as (j & Hj & Hjs%elem_of_seq).
      pose proof (inv_depth _ _ _ I x (Hin1 _ Hx)) as Hdx.
      rewrite (depth_at_open _ _ Hox) in Hdx. lia.
    + done.
    + rewrite Forall_forall in HP2. by destruct (HP2 x Hx).
  - exists m. split; [lia|].
    rewrite filter_app, filter_cons_False, (filter_pending_closed _ HP2) by done.
    by rewrite app_nil_r.
Qed.

(** The scan over a run of tokens along which the depth never goes
    negative: it does not throw, and it hands the invariant on. *)
Lemma scan_run rest : forall pre P L rest2,
  scan_inv pre P L ->
  (forall k, k <= length (pre ++ rest) -> (0 <= depth_at (pre ++ rest) k)%Z) ->
  exists P',
    scan (rest ++ rest2) (length pre) P L
    = scan rest2 (length (pre ++ rest)) P' (depth (pre ++ rest)) /\
    scan_inv (pre ++ rest) P' (depth (pre ++ rest)).
Proof.
  induction rest as [|t rest IH]; intros pre P L rest2 I Hnn.
  - exists P. rewrite app_nil_r, <- (inv_level _ _ _ I). done.
  - assert (length (pre ++ [t]) = S (length pre)) as Hlen
      by (rewrite length_app; simpl; lia).
    assert (pre ++ t :: rest = (pre ++ [t]) ++ rest) as Hsplit
      by (by rewrite <- app_assoc).
    rewrite Hsplit in *. simpl.
    destruct (String.eqb_spec (type t) "paren_open") as [Ho|Ho].
    { destruct (IH (pre ++ [t]) _ _ rest2 (scan_inv_open _ _ _ _ Ho I) Hnn)
        as (P' & HP' & I').
      exists P'. by rewrite <- HP', Hlen. }
    destruct (String.eqb_spec (type t) "paren_close") as [Hc|Hc].
    { assert (0 <= L - 1)%Z as HL.
      { specialize (Hnn (S (length pre))).
        rewrite depth_at_app_le, depth_at_snoc_last, (delta_close _ Hc),
          <- (inv_level _ _ _ I) in Hnn by lia.
        apply Hnn. rewrite length_app, Hlen. lia. }
      destruct (Z.ltb_spec (L - 1) 0) as [?|_]; [lia|].
      destruct (IH (pre ++ [t]) _ _ rest2 (scan_inv_close _ _ _ _ Hc HL I) Hnn)
        as (P' & HP' & I').
      exists P'. by rewrite <- HP', Hlen. }
    destruct (IH (pre ++ [t]) _ _ rest2 (scan_inv_other _ _ _ _ Ho Hc I) Hnn)
      as (P' & HP' & I').
    exists P'. by rewrite <- HP', Hlen.
Qed.
End scan_invariant.

Section parentheses_results.
Implicit Types (tokens : list token) (b : paren).

Lemma parentheses_run tokens :
  never_negative tokens ->
  exists blocks,
    parentheses tokens = Return blocks /\
    scan_inv tokens blocks (depth tokens).
Proof.
  intros Hnn.
  destruct (scan_run tokens [] [] 0%Z [] scan_inv_init) as (P' & HP' & I').
  { intros k _. apply Hnn. }
  exists P'. split; [|done].
  unfold parentheses. rewrite app_nil_r in HP'. exact HP'.
Qed.

Lemma depth_at_take tokens i k :
  k <= i -> depth_at (take i tokens) k = depth_at tokens k.
Proof.
  intros H. unfold depth_at. rewrite take_take. f_equal. f_equal. lia.
Qed.

(** Two matched pairs never cross. *)
Lemma matching_no_crossing tokens s1 c1 s2 c2 :
  matching tokens s1 c1 -> matching tokens s2 c2 ->
  is_open tokens s2 -> s1 < s2 ->
  S c1 <= s2 \/ S c2 < S c1.
Proof.
  intros (H1 & Hc1 & Hd1 & Hk1) (H2 & Hc2 & Hd2 & Hk2) Ho Hlt.
  destruct (decide (c1 < s2)) as [?|Hge]; [left; lia|]. right.
  assert (c1 <> s2) as Hne.
  { intros ->. destruct Hc1 as (t & Ht & Hty), Ho as (t' & Ht' & Hty').
    congruence. }
  assert (depth_at tokens s1 < depth_at tokens s2)%Z by (apply Hk1; lia).
  destruct (decide (c2 < c1)) as [?|Hle]; [lia|].
  destruct (decide (c1 = c2)) as [->|?]; [lia|].
  assert (depth_at tokens s2 < depth_at tokens (S c1))%Z by (apply Hk2; lia).
  lia.
Qed.

Lemma matching_unique tokens s c1 c2 :
  matching tokens s c1 -> matching tokens s c2 -> c1 = c2.
Proof.
  intros (H1 & Hc1 & Hd1 & Hk1) (H2 & Hc2 & Hd2 & Hk2).
  destruct (Nat.lt_trichotomy c1 c2) as [Hlt | [-> | Hlt]]; [|done|].
  - assert (depth_at tokens s < depth_at tokens (S c1))%Z by (apply Hk2; lia).
    lia.
  - assert (depth_at tokens s < depth_at tokens (S c2))%Z by (apply Hk1; lia).
    lia.
Qed.
End parentheses_results.

Lemma delta_negative t : (delta t < 0)%Z -> type t = "paren_close".
Proof.
  unfold delta.
  destruct (String.eqb_spec (type t) "paren_open"); [lia|].
  destruct (String.eqb_spec (type t) "paren_close"); [done | lia].
Qed.

(** Up to any position, either the depth has stayed non-negative or an
    excess closing parenthesis has been met. *)
Lemma excess_close_or_nonnegative (tokens : list token) (k : nat) :
  (forall j, j <= k -> (0 <= depth_at tokens j)%Z) \/
  exists i, i < k /\ excess_close tokens i.
Proof.
  induction k as [|k [IH | (i & Hi & Hex)]].
  - left. intros j Hj. by replace j with 0 by lia.
  - destruct (decide (0 <= depth_at tokens (S k))%Z) as [Hk|Hk].
    + left. intros j Hj. destruct (decide (j = S k)) as [->|?]; [done|].
      apply IH. lia.
    + right. exists k. split; [lia|].
      destruct (tokens !! k) as [t|] eqn:Ht.
      * rewrite (depth_at_S _ _ _ Ht) in Hk. pose proof (IH k (le_n _)) as Hkk.
        assert (delta t < 0)%Z as Hd by lia.
        pose proof (delta_negative t Hd) as Hty.
        rewrite (delta_close _ Hty) in Hk.
        split; [by exists t|]. split; [lia | done].
      * apply lookup_ge_None in Ht. pose proof (IH k (le_n _)) as Hkk.
        rewrite depth_at_all in Hk by lia. rewrite depth_at_all in Hkk by lia.
        lia.
  - right. exists i. split; [lia | done].
Qed.

(** Whenever the running depth goes negative somewhere, some token is an
    excess closing parenthesis. *)
Lemma negative_depth_excess_close (tokens : list token) (k : nat) :
  (depth_at tokens k < 0)%Z -> exists i, excess_close tokens i.
Proof.
  intros Hk. destruct (excess_close_or_nonnegative tokens k)
    as [Hnn | (i & _ & Hex)]; [|by exists i].
  specialize (Hnn k (le_n _)). lia.
Qed.

(** Settles [never_negative] on a concrete list of at most eight tokens. *)
Ltac never_negative_by_cases :=
  let k := fresh "k" in
  intros k;
  do 9 (try (destruct k as [|k]; [by vm_compute|]));
  by vm_compute.

(** C3. A closing parenthesis at which the running depth would go
    negative makes [parentheses] fail with the bad-parentheses error that
    reports the index of that token. *)
Theorem parentheses_excess_close_throws (tokens : list token) (i : nat) :
  excess_close tokens i ->
  parentheses tokens = Throw (BadParenthesesSyntax i).
Proof.
  intros ((t & Ht & Hty) & Hz & Hnn).
  pose proof (lookup_lt_Some _ _ _ Ht) as Hlt.
  assert (length (take i tokens) = i) as Hlen by (rewrite length_take; lia).
  destruct (scan_run (take i tokens) [] [] 0%Z (t :: drop (S i) tokens)
              scan_inv_init) as (P' & HP' & _).
  { simpl. intros k Hk. rewrite depth_at_take by lia. apply Hnn. lia. }
  simpl in HP'. rewrite (take_drop_middle _ _ _ Ht) in HP'.
  unfold parentheses. rewrite HP', Hlen.
  change (depth (take i tokens)) with (depth_at tokens i). rewrite Hz.
  simpl. rewrite Hty. reflexivity.
Qed.

Lemma parentheses_excess_close_throws_witness :
  let tokens := [tk "paren_open"; tk "paren_close"; tk "paren_close";
                 tk "paren_open"] in
  excess_close tokens 2 /\ parentheses tokens = Throw (BadParenthesesSyntax 2).
Proof.
  assert (excess_close [tk "paren_open"; tk "paren_close"; tk "paren_close";
                        tk "paren_open"] 2) as H.
  { split; [by exists (tk "paren_close")|]. split; [reflexivity|].
    intros k Hk. do 3 (destruct k as [|k]; [by vm_compute|]). lia. }
  split; [exact H|]. exact (parentheses_excess_close_throws _ 2 H).
Defined.

(** C4. On balanced tokens the returned blocks are properly nested: two
    blocks at different positions of the result are disjoint or one
    strictly contains the other; and every opening token is the start of
    exactly one returned block. *)
Theorem parentheses_properly_nested (tokens : list token) :
  balanced tokens ->
  exists blocks,
    parentheses tokens = Return blocks /\
    (forall p q b1 b2,
        p <> q -> blocks !! p = Some b1 -> blocks !! q = Some b2 ->
        disjoint_blocks b1 b2 \/ strictly_contains b1 b2 \/
        strictly_contains b2 b1) /\
    (forall i, is_open tokens i ->
        exists! p, start <$> blocks !! p = Some i).
Proof.
  intros [Hnn Hz].
  destruct (parentheses_run tokens Hnn) as (blocks & Hret & I).
  exists blocks. split; [done|]. split.
  - assert (forall p b, blocks !! p = Some b ->
              is_open tokens (start b) /\
              exists c, end_ b = Some (S c) /\ matching tokens (start b) c)
      as Hclosed.
    { intros p b Hb.
      assert (b ∈ blocks) as Hin by (apply list_elem_of_lookup; eauto).
      split; [by eapply scan_inv_open_at|].
      destruct (inv_stack _ _ _ I) as (n & Hn & Hlv).
      assert (n = 0) as -> by lia. simpl in Hlv.
      apply fmap_nil_inv, pending_closed_filter in Hlv.
      rewrite Forall_forall in Hlv. specialize (Hlv b Hin).
      destruct (end_ b) as [e|] eqn:He; [|done].
      destruct (inv_closed _ _ _ I b e Hin He) as (c & -> & Hm). eauto. }
    intros p q b1 b2 Hpq Hb1 Hb2.
    destruct (Hclosed p b1 Hb1) as (Ho1 & c1 & He1 & Hm1).
    destruct (Hclosed q b2 Hb2) as (Ho2 & c2 & He2 & Hm2).
    assert (start b1 <> start b2) as Hne.
    { intros Heq. apply Hpq.
      apply (NoDup_lookup (start <$> blocks) p q (start b1)).
      - rewrite (inv_starts _ _ _ I). apply open_indices_NoDup.
      - by rewrite list_lookup_fmap, Hb1.
      - by rewrite list_lookup_fmap, Hb2, Heq. }
    destruct (Nat.lt_trichotomy (start b1) (start b2)) as [Hlt | [? | Hlt]];
      [|done|].
    + destruct (matching_no_crossing _ _ _ _ _ Hm1 Hm2 Ho2 Hlt) as [Hd | Hc].
      * left. exists (S c1), (S c2). auto.
      * right. left. exists (S c1), (S c2). auto.
    + destruct (matching_no_crossing _ _ _ _ _ Hm2 Hm1 Ho1 Hlt) as [Hd | Hc].
      * left. exists (S c1), (S c2). auto.
      * right. right. exists (S c2), (S c1). auto.
  - intros i Hi.
    assert (i ∈ start <$> blocks) as Hin.
    { rewrite (inv_starts _ _ _ I). apply elem_of_open_indices. by exists i. }
    apply list_elem_of_lookup in Hin as (p & Hp).
    exists p. split; [by rewrite <- list_lookup_fmap|].
    intros p' Hp'. rewrite <- list_lookup_fmap in Hp'.
    apply (NoDup_lookup (start <$> blocks) p p' i); [|done..].
    rewrite (inv_starts _ _ _ I). apply open_indices_NoDup.
Qed.

Lemma parentheses_properly_nested_witness :
  let tokens := [tk "paren_open"; tk "paren_open"; tk "number";
                 tk "paren_close"; tk "operator"; tk "paren_open";
                 tk "paren_close"; tk "paren_close"] in
  balanced tokens /\
  exists blocks,
    parentheses tokens = Return blocks /\
    (forall p q b1 b2,
        p <> q -> blocks !! p = Some b1 -> blocks !! q = Some b2 ->
        disjoint_blocks b1 b2 \/ strictly_contains b1 b2 \/
        strictly_contains b2 b1) /\
    (forall i, is_open tokens i ->
        exists! p, start <$> blocks !! p = Some i).
Proof.
  assert (balanced [tk "paren_open"; tk "paren_open"; tk "number";
                    tk "paren_close"; tk "operator"; tk "paren_open";
                    tk "paren_close"; tk "paren_close"]) as H.
  { split; [never_negative_by_cases | reflexivity]. }
  split; [exact H|]. exact (parentheses_properly_nested _ H).
Defined.

(** C5. On balanced tokens every returned block starts at an opening
    token, ends one past the closing token that matches it under LIFO
    matching (the blocks opened between the two are closed by then, so
    the closing token meets its block as the innermost open one), and has
    as level the nesting depth of its opening token, which is at least 1. *)
Theorem parentheses_block_fields (tokens : list token) :
  balanced tokens ->
  exists blocks,
    parentheses tokens = Return blocks /\
    forall b, b ∈ blocks ->
      is_open tokens (start b) /\
      (exists c, end_ b = Some (c + 1) /\ matching tokens (start b) c /\
         forall b', b' ∈ blocks -> start b < start b' < c ->
           exists e', end_ b' = Some e' /\ e' <= c) /\
      level b = nesting_depth tokens (start b) /\
      (1 <= level b)%Z.
Proof.
  intros [Hnn Hz].
  destruct (parentheses_run tokens Hnn) as (blocks & Hret & I).
  exists blocks. split; [done|].
  assert (forall b, b ∈ blocks ->
            exists c, end_ b = Some (S c) /\ matching tokens (start b) c)
    as Hclosed.
  { intros b Hin. destruct (inv_stack _ _ _ I) as (n & Hn & Hlv).
    assert (n = 0) as -> by lia. simpl in Hlv.
    apply fmap_nil_inv, pending_closed_filter in Hlv.
    rewrite Forall_forall in Hlv. specialize (Hlv b Hin).
    destruct (end_ b) as [e|] eqn:He; [|done].
    destruct (inv_closed _ _ _ I b e Hin He) as (c & -> & Hm). eauto. }
  intros b Hin.
  pose proof (scan_inv_open_at _ _ _ _ I Hin) as Ho.
  pose proof (inv_depth _ _ _ I b Hin) as Hl.
  split; [done|]. split; [|split; [done|]].
  - destruct (Hclosed b Hin) as (c & He & Hm).
    exists c. rewrite Nat.add_1_r. split; [done|]. split; [done|].
    intros b' Hin' Hbetween.
    destruct (Hclosed b' Hin') as (c' & He' & Hm').
    pose proof (scan_inv_open_at _ _ _ _ I Hin') as Ho'.
    exists (S c'). split; [done|].
    destruct (matching_no_crossing _ _ _ _ _ Hm Hm' Ho') as [?|?]; lia.
  - rewrite Hl, (depth_at_open _ _ Ho). specialize (Hnn (start b)). lia.
Qed.

Lemma parentheses_block_fields_witness :
  let tokens := [tk "paren_open"; tk "identifier"; tk "operator";
                 tk "paren_open"; tk "number"; tk "paren_close";
                 tk "paren_close"] in
  balanced tokens /\
  exists blocks,
    parentheses tokens = Return blocks /\
    forall b, b ∈ blocks ->
      is_open tokens (start b) /\
      (exists c, end_ b = Some (c + 1) /\ matching tokens (start b) c /\
         forall b', b' ∈ blocks -> start b < start b' < c ->
           exists e', end_ b' = Some e' /\ e' <= c) /\
      level b = nesting_depth tokens (start b) /\
      (1 <= level b)%Z.
Proof.
  assert (balanced [tk "paren_open"; tk "identifier"; tk "operator";
                    tk "paren_open"; tk "number"; tk "paren_close";
                    tk "paren_close"]) as H.
  { split; [never_negative_by_cases | reflexivity]. }
  split; [exact H|]. exact (parentheses_block_fields _ H).
Defined.

(** C7. When the running depth never goes negative but is positive at
    the end of the input, [parentheses] returns normally; the blocks whose
    opening token has no matching closing token keep [end] equal to
    [null], and there are as many of them as the final depth. *)
Theorem parentheses_unclosed_returns (tokens : list token) :
  never_negative tokens -> (0 < depth tokens)%Z ->
  exists blocks,
    parentheses tokens = Return blocks /\
    (forall b, b ∈ blocks ->
       end_ b = None <-> ~ exists c, matching tokens (start b) c) /\
    Z.of_nat (length (filter (fun b => end_ b = None) blocks)) = depth tokens.
Proof.
  intros Hnn Hpos.
  destruct (parentheses_run tokens Hnn) as (blocks & Hret & I).
  exists blocks. split; [done|]. split.
  - intros b Hin. split.
    + intros He (c & Hsc & Hc & Hd & Hk).
      pose proof (is_close_lt _ _ Hc).
      pose proof (inv_pending _ _ _ I b Hin He (S c)). lia.
    + intros Hno. destruct (end_ b) as [e|] eqn:He; [|done].
      destruct (inv_closed _ _ _ I b e Hin He) as (c & -> & Hm).
      destruct Hno. eauto.
  - destruct (inv_stack _ _ _ I) as (n & Hn & Hlv).
    apply (f_equal length) in Hlv. rewrite !length_fmap, length_seq in Hlv.
    lia.
Qed.

Lemma parentheses_unclosed_returns_witness :
  let tokens := [tk "paren_open"; tk "paren_open"; tk "number";
                 tk "paren_close"] in
  (never_negative tokens /\ (0 < depth tokens)%Z) /\
  exists blocks,
    parentheses tokens = Return blocks /\
    (forall b, b ∈ blocks ->
       end_ b = None <-> ~ exists c, matching tokens (start b) c) /\
    Z.of_nat (length (filter (fun b => end_ b = None) blocks)) = depth tokens.
Proof.
  assert (never_negative [tk "paren_open"; tk "paren_open"; tk "number";
                          tk "paren_close"]) as H by never_negative_by_cases.
  assert (0 < depth [tk "paren_open"; tk "paren_open"; tk "number";
                     tk "paren_close"])%Z as H' by reflexivity.
  split; [by split|]. exact (parentheses_unclosed_returns _ H H').
Defined.

(** * Proofs: evaluator.js *)

Section evaluator_facts.
Context `{Runtime}.
Implicit Types (t : node) (vars values : bindings) (us : list string).

Lemma evaluate_accepted expression t us :
  accepted expression t us ->
  evaluate expression
  = Return {| calc := evaluate_calc (evaluate_traverse t) us; unknowns := us |}.
Proof.
  intros (tokens & tokens' & Hl & Hs & Hp).
  unfold evaluate. rewrite Hl. simpl. rewrite Hs. simpl. by rewrite Hp.
Qed.

Lemma fastEvaluate_accepted expression t us values :
  accepted expression t us ->
  fastEvaluate expression values
  = if negb (size values =? length us)%nat then
      Throw (IncorrectNumberOfValues (length us) (size values))
    else
      try! _ := fastEvaluate_for_of us values in
      Return (fastEvaluate_traverse t values).
Proof.
  intros (tokens & tokens' & Hl & Hs & Hp).
  unfold fastEvaluate. rewrite Hl. simpl. rewrite Hs. simpl. by rewrite Hp.
Qed.

(** With [hasOwnProperty] in place, the loop over the unknowns stops at
    the first one that is not a key. *)
Lemma evaluate_for_of_cases us vars :
  vars !! "hasOwnProperty" = None ->
  (Forall (fun u => is_Some (vars !! u)) us /\
   evaluate_for_of us vars = Return tt) \/
  (exists pre v post,
      us = pre ++ v :: post /\
      Forall (fun u => is_Some (vars !! u)) pre /\
      vars !! v = None /\
      evaluate_for_of us vars = Throw (MissingValue v)).
Proof.
  intros Hm. induction us as [|u us IH]; [by left|]. simpl.
  unfold hasOwnProperty. rewrite Hm. simpl.
  case_bool_decide as Hu; simpl.
  - destruct IH as [[Hall Hret] | (pre & v & post & -> & Hpre & Hv & Hthrow)].
    + left. split; [by constructor | done].
    + right. exists (u :: pre), v, post. split; [done|].
      split; [by constructor | done].
  - right. exists [], u, us. split; [done|]. split; [constructor|].
    split; [by apply eq_None_not_Some | done].
Qed.

(** With a key in its way, the first call of [hasOwnProperty] throws. *)
Lemma evaluate_for_of_shadowed u us vars :
  is_Some (vars !! "hasOwnProperty") ->
  evaluate_for_of (u :: us) vars = Throw HasOwnPropertyNotAFunction.
Proof. intros [x Hx]. simpl. unfold hasOwnProperty. by rewrite Hx. Qed.

Lemma fastEvaluate_for_of_eq us values :
  fastEvaluate_for_of us values = evaluate_for_of us values.
Proof. induction us as [|u us IH]; simpl; [done | by rewrite IH]. Qed.

Lemma filter_absent_nil us vars :
  Forall (fun u => is_Some (vars !! u)) us ->
  filter (fun v => vars !! v = None) us = [].
Proof.
  induction 1 as [|u us Hu _ IH]; [done|].
  rewrite filter_cons_False; [done|]. by apply not_eq_None_Some.
Qed.

(** [checks_error] is the error, if any, of the checks of [calc]. *)
Lemma checks_error_calc fn us vars :
  evaluate_calc fn us vars
  = match checks_error us vars with
    | Some e => Throw e
    | None => call fn vars
    end.
Proof.
  unfold evaluate_calc, checks_error.
  destruct (decide (size vars = length us)) as [Heq|Hne].
  2: { by rewrite (proj2 (Nat.eqb_neq _ _) Hne). }
  rewrite (proj2 (Nat.eqb_eq _ _) Heq). simpl.
  destruct us as [|u us]; [done|].
  destruct (decide (is_Some (vars !! "hasOwnProperty"))) as [Hsh|Hm].
  { by rewrite evaluate_for_of_shadowed. }
  apply eq_None_not_Some in Hm.
  destruct (evaluate_for_of_cases (u :: us) vars Hm)
    as [[Hall ->] | (pre & v & post & -> & Hpre & Hv & ->)]; simpl.
  - by rewrite (filter_absent_nil _ _ Hall).
  - rewrite filter_app, (filter_absent_nil _ _ Hpre), filter_cons_True by done.
    done.
Qed.

Lemma checks_error_fastEvaluate expression t us values :
  accepted expression t us ->
  fastEvaluate expression values
  = match checks_error us values with
    | Some e => Throw e
    | None => Return (fastEvaluate_traverse t values)
    end.
Proof.
  intros Hacc. rewrite (fastEvaluate_accepted _ _ _ _ Hacc).
  pose proof (checks_error_calc
                (Some (fun v => Return (fastEvaluate_traverse t v))) us values)
    as Hc.
  unfold evaluate_calc in Hc. rewrite fastEvaluate_for_of_eq.
  destruct (negb _); [done|]. simpl in *.
  by destruct (evaluate_for_of us values) as [[]|e].
Qed.

(** The checks pass when the counts agree, every unknown is a key, and
    the presence check can run. *)
Lemma checks_error_None us vars :
  checks_error us vars = None <->
  size vars = length us /\ Forall (fun u => is_Some (vars !! u)) us /\
  presence_check_runs us vars.
Proof.
  unfold checks_error, presence_check_runs.
  destruct (decide _) as [Heq|Hne].
  2: { split; [done | by intros [? _]]. }
  destruct us as [|u us].
  { split; [|done]. intros _. split; [done|]. split; [constructor | by left]. }
  destruct (decide (is_Some (vars !! "hasOwnProperty"))) as [[x Hx]|Hm].
  { split; [done|]. intros (_ & _ & [? | Hn]); [done | congruence]. }
  apply eq_None_not_Some in Hm. split.
  - intros Hh. split; [done|]. split; [|by right].
    apply Forall_forall. intros w Hw.
    apply not_eq_None_Some. intros Hn.
    destruct (filter _ (u :: us)) as [|y l] eqn:Hf; [|done].
    eapply filter_nil_not_elem_of; [exact Hf | exact Hn | exact Hw].
  - intros (_ & Hall & _). by rewrite (filter_absent_nil _ _ Hall).
Qed.

(** Away from a shadowed [hasOwnProperty], the checks of the code are
    those of the specification. *)
Lemma checks_error_binding_error us vars :
  presence_check_runs us vars -> checks_error us vars = binding_error us vars.
Proof.
  unfold checks_error, binding_error. intros Hrun.
  destruct (decide _) as [Heq|Hne]; [|done].
  destruct us as [|u us]; [done|].
  destruct Hrun as [? | Hm]; [done|].
  destruct (decide (is_Some (vars !! "hasOwnProperty"))) as [[x Hx]|_];
    [congruence | done].
Qed.

(** Case analysis on [String.eqb op s]; the operator is replaced by [s]
    in the branch where they are equal. *)
Ltac case_operator op s E :=
  destruct (String.eqb op s) eqn:E;
  [apply String.eqb_eq in E; subst op; simpl | simpl].

(** On a tree of the data model, the [fn] that [traverse] attaches
    returns the value of the tree. *)
Lemma call_evaluate_traverse t vars :
  well_formed t = true ->
  call (evaluate_traverse t) vars = Return (tree_value t vars).
Proof.
  induction t as [c IH | op c IH | op l IHl r IHr | v | name]; simpl;
    intros Hwf; [by apply IH | | | done..].
  - apply andb_true_iff in Hwf as [Hop Hc]. specialize (IH Hc).
    case_operator op "+" E1; [done|].
    case_operator op "-" E2; [by rewrite IH|].
    by simpl in Hop.
  - rewrite !andb_true_iff in Hwf. destruct Hwf as [[Hop Hl] Hr].
    specialize (IHl Hl). specialize (IHr Hr).
    case_operator op "+" E1; [by rewrite IHl, IHr|].
    case_operator op "-" E2; [by rewrite IHl, IHr|].
    case_operator op "*" E3; [by rewrite IHl, IHr|].
    case_operator op "/" E4; [by rewrite IHl, IHr|].
    case_operator op "^" E5; [by rewrite IHl, IHr|].
    by simpl in Hop.
Qed.

(** Without exponentiation, and where both parses of the literals agree,
    the direct walk computes the value of the tree. *)
Lemma fastEvaluate_traverse_value t values :
  well_formed t = true -> power_free t = true -> literals_agree t ->
  fastEvaluate_traverse t values = tree_value t values.
Proof.
  induction t as [c IH | op c IH | op l IHl r IHr | v | name]; simpl;
    intros Hwf Hpf Hlit; [by apply IH | | | by rewrite Hlit | done].
  - apply andb_true_iff in Hwf as [Hop Hc]. specialize (IH Hc Hpf Hlit).
    case_operator op "+" E1; [done|].
    case_operator op "-" E2; [by rewrite IH|].
    by simpl in Hop.
  - rewrite !andb_true_iff in Hwf, Hpf. destruct Hwf as [[Hop Hl] Hr].
    destruct Hpf as [[Hp Hpl] Hpr]. destruct Hlit as [Hll Hlr].
    specialize (IHl Hl Hpl Hll). specialize (IHr Hr Hpr Hlr).
    case_operator op "+" E1; [by rewrite IHl, IHr|].
    case_operator op "-" E2; [by rewrite IHl, IHr|].
    case_operator op "*" E3; [by rewrite IHl, IHr|].
    case_operator op "/" E4; [by rewrite IHl, IHr|].
    apply negb_true_iff in Hp. rewrite Hp in Hop. by simpl in Hop.
Qed.

(** The value of a tree whose variables are all bound is a Number. *)
Lemma tree_value_number t vars :
  well_formed t = true ->
  (forall name, name ∈ variables_of t -> is_Some (vars !! name)) ->
  exists x, tree_value t vars = JNum x.
Proof.
  induction t as [c IH | op c IH | op l IHl r IHr | v | name]; simpl;
    intros Hwf Hvars.
  - by apply IH.
  - apply andb_true_iff in Hwf as [_ Hc].
    destruct (String.eqb op "-"); [by eexists | by apply IH].
  - rewrite !andb_true_iff in Hwf. destruct Hwf as [[_ Hl] Hr].
    destruct (IHl Hl) as [x ->].
    { intros name Hn. apply Hvars, elem_of_app. by left. }
    destruct (IHr Hr) as [y ->].
    { intros name Hn. apply Hvars, elem_of_app. by right. }
    unfold js_add, js_sub, js_mul, js_div, js_pow. simpl.
    repeat (destruct (String.eqb op _); [by eexists|]). by eexists.
  - by eexists.
  - destruct (Hvars name) as [x Hx]; [by apply list_elem_of_singleton|].
    exists x. unfold get. by rewrite Hx.
Qed.
End evaluator_facts.

(** C2 fails on bindings that have a key [hasOwnProperty]. [calc] calls
    [variables.hasOwnProperty], which is then the value under that key and
    not the method of [Object.prototype]: with unknowns to check, as many
    keys as unknowns and [hasOwnProperty] among the keys, [calc] throws a
    TypeError, where the claim has the missing-variable error when an
    unknown is not a key and the value of the tree when they all are. *)
Theorem calc_shadowed_hasOwnProperty `{Runtime} (expression : string)
    (parse_tree : node) (us : list string) (variables : bindings) :
  accepted expression parse_tree us ->
  us <> [] ->
  size variables = length us ->
  is_Some (variables !! "hasOwnProperty") ->
  exists ev,
    evaluate expression = Return ev /\ unknowns ev = us /\
    calc ev variables = Throw HasOwnPropertyNotAFunction /\
    (forall v, calc ev variables <> Throw (MissingValue v)) /\
    (forall x, calc ev variables <> Return x).
Proof.
  intros Hacc Hus Hsz Hsh. eexists. split; [by apply evaluate_accepted|].
  split; [done|]. simpl. unfold evaluate_calc.
  rewrite (proj2 (Nat.eqb_eq _ _) Hsz). simpl.
  destruct us as [|u us]; [done|].
  rewrite (evaluate_for_of_shadowed u us variables Hsh). by repeat split.
Qed.

Lemma calc_shadowed_hasOwnProperty_witness :
  let parse_tree := binary_operator "+" (variable "x") (variable "y") in
  let us := ["x"; "y"] in
  let variables : bindings :=
    {[ "x" := 1%float; "hasOwnProperty" := 5%float ]} in
  let R := fixed_runtime parse_tree us in
  (accepted "x + y" parse_tree us /\ us <> [] /\
   size variables = length us /\
   is_Some (variables !! "hasOwnProperty")) /\
  variables !! "y" = None /\
  binding_error us variables = Some (MissingValue "y") /\
  exists ev,
    evaluate "x + y" = Return ev /\
    calc ev variables = Throw HasOwnPropertyNotAFunction.
Proof.
  intros parse_tree us variables R.
  assert (accepted "x + y" parse_tree us) as Hacc.
  { exists [], []. repeat split; reflexivity. }
  assert (us <> []) as Hus by discriminate.
  assert (size variables = length us) as Hsz by (vm_compute; reflexivity).
  assert (is_Some (variables !! "hasOwnProperty")) as Hsh
    by (exists 5%float; vm_compute; reflexivity).
  split; [by repeat split|].
  split; [vm_compute; reflexivity|]. split; [vm_compute; reflexivity|].
  destruct (calc_shadowed_hasOwnProperty "x + y" parse_tree us variables
              Hacc Hus Hsz Hsh) as (ev & Hev & _ & Hcalc & _).
  exists ev. split; [exact Hev | exact Hcalc].
Defined.

(** C9. [fastEvaluate] makes the checks of [calc], and makes them before
    it walks the tree. With a number of keys that is not the number of
    unknowns both fail with the arity error; with as many keys as unknowns
    and an unknown that is not a key both fail with one and the same
    error, whatever the tree is: the missing-variable error for the first
    such unknown when [hasOwnProperty] is not a key, the TypeError of the
    call of [hasOwnProperty] when it is; with bindings that pass, both go
    on to the tree. *)
Theorem fastEvaluate_checks_first `{Runtime} (expression : string)
    (parse_tree : node) (us : list string) (values : bindings) :
  accepted expression parse_tree us ->
  exists ev,
    evaluate expression = Return ev /\
    (size values <> length us ->
     fastEvaluate expression values
     = Throw (IncorrectNumberOfValues (length us) (size values)) /\
     calc ev values
     = Throw (IncorrectNumberOfValues (length us) (size values))) /\
    (size values = length us ->
     (exists v, v ∈ us /\ values !! v = None) ->
     exists e,
       fastEvaluate expression values = Throw e /\
       calc ev values = Throw e /\
       (is_Some (values !! "hasOwnProperty") ->
        e = HasOwnPropertyNotAFunction) /\
       (values !! "hasOwnProperty" = None ->
        exists pre v post,
          us = pre ++ v :: post /\
          Forall (fun u => is_Some (values !! u)) pre /\
          values !! v = None /\ e = MissingValue v)) /\
    (size values = length us ->
     Forall (fun u => is_Some (values !! u)) us ->
     presence_check_runs us values ->
     fastEvaluate expression values
     = Return (fastEvaluate_traverse parse_tree values) /\
     calc ev values = call (evaluate_traverse parse_tree) values).
Proof.
  intros Hacc. eexists. split; [by apply evaluate_accepted|]. simpl.
  rewrite (fastEvaluate_accepted _ _ _ _ Hacc), fastEvaluate_for_of_eq.
  unfold evaluate_calc.
  destruct (Nat.eqb_spec (size values) (length us)) as [Heq|Hne]; simpl.
  2: { split; [done|]. split; [done|]. by intros ?. }
  split; [done|]. split.
  - intros _ (w & Hin & Hw).
    destruct (values !! "hasOwnProperty") as [x|] eqn:Hown.
    + destruct us as [|u us]; [by apply elem_of_nil in Hin|].
      rewrite (evaluate_for_of_shadowed u us values) by by exists x.
      exists HasOwnPropertyNotAFunction. simpl. by repeat split.
    + destruct (evaluate_for_of_cases us values Hown)
        as [[Hall _] | (pre & v & post & Hus & Hpre & Hv & ->)].
      * rewrite Forall_forall in Hall. destruct (Hall w Hin) as [x Hx].
        congruence.
      * exists (MissingValue v). simpl. repeat split; [by intros [? ?]|].
        intros _. by exists pre, v, post.
  - intros _ Hall Hrun.
    pose proof (proj2 (checks_error_None us values) (conj Heq (conj Hall Hrun)))
      as Hok.
    pose proof (checks_error_calc (evaluate_traverse parse_tree) us values)
      as Hc.
    unfold evaluate_calc in Hc.
    rewrite (proj2 (Nat.eqb_eq _ _) Heq), Hok in Hc. simpl in Hc.
    destruct (evaluate_for_of us values) as [[]|e] eqn:Hfor; simpl in *.
    + done.
    + exfalso. destruct Hrun as [-> | Hown]; [done|].
      destruct (evaluate_for_of_cases us values Hown)
        as [[_ Hret] | (pre & v & post & Hus & _ & Hv & _)]; [congruence|].
      rewrite Forall_forall in Hall. destruct (Hall v) as [x Hx]; [|congruence].
      rewrite Hus. apply elem_of_app. right. by apply elem_of_cons; left.
Qed.

Lemma fastEvaluate_checks_first_witness :
  let parse_tree := binary_operator "+" (variable "x") (variable "y") in
  let us := ["x"; "y"] in
  let values : bindings := {[ "x" := 1%float; "hasOwnProperty" := 5%float ]} in
  let other : bindings := {[ "x" := 1%float; "z" := 3%float ]} in
  let R := fixed_runtime parse_tree us in
  accepted "x + y" parse_tree us /\
  exists ev,
    evaluate "x + y" = Return ev /\
    fastEvaluate "x + y" values = Throw HasOwnPropertyNotAFunction /\
    calc ev values = Throw HasOwnPropertyNotAFunction /\
    fastEvaluate "x + y" other = Throw (MissingValue "y") /\
    calc ev other = Throw (MissingValue "y").
Proof.
  intros parse_tree us values other R.
  assert (accepted "x + y" parse_tree us) as Hacc.
  { exists [], []. repeat split; reflexivity. }
  assert ("y" ∈ us) as Hy.
  { apply elem_of_cons. right. apply elem_of_cons. by left. }
  split; [exact Hacc|].
  destruct (fastEvaluate_checks_first "x + y" parse_tree us values Hacc)
    as (ev & Hev & _ & Hbad & _).
  destruct (fastEvaluate_checks_first "x + y" parse_tree us other Hacc)
    as (ev' & Hev' & _ & Hbad' & _).
  assert (ev' = ev) as -> by congruence.
  destruct Hbad as (e & Hfast & Hcalc & Hsh & _);
    [vm_compute; reflexivity
    | exists "y"; split; [exact Hy | vm_compute; reflexivity] |].
  destruct Hbad' as (e' & Hfast' & Hcalc' & _ & Hmiss);
    [vm_compute; reflexivity
    | exists "y"; split; [exact Hy | vm_compute; reflexivity] |].
  assert (e = HasOwnPropertyNotAFunction) as ->.
  { apply Hsh. exists 5%float. vm_compute. reflexivity. }
  assert (e' = MissingValue "y") as ->.
  { assert (fastEvaluate "x + y" other = Throw (MissingValue "y")) as Hm
      by (vm_compute; reflexivity).
    congruence. }
  exists ev. repeat split; assumption.
Defined.

(** C10. The direct walk has no case for [^]: on a binary node with that
    operator, as with any operator other than [+ - * /], it yields
    [undefined], whereas the [fn] of the compiled form raises the value of
    the left child to the power of the value of the right child. *)
Theorem fastEvaluate_traverse_power `{Runtime} (l r : node) (values : bindings) :
  fastEvaluate_traverse (binary_operator "^" l r) values = JUndefined /\
  (forall operator,
      operator ∉ ["+"; "-"; "*"; "/"] ->
      fastEvaluate_traverse (binary_operator operator l r) values = JUndefined) /\
  call (evaluate_traverse (binary_operator "^" l r)) values
  = (try! a := call (evaluate_traverse l) values in
     try! b := call (evaluate_traverse r) values in
     Return (JNum (pow (ToNumber a) (ToNumber b)))).
Proof.
  split; [done|]. split; [|done].
  intros op Hop. cbn [fastEvaluate_traverse].
  destruct (String.eqb_spec op "+") as [->|_]; [destruct Hop; set_solver|].
  destruct (String.eqb_spec op "-") as [->|_]; [destruct Hop; set_solver|].
  destruct (String.eqb_spec op "*") as [->|_]; [destruct Hop; set_solver|].
  destruct (String.eqb_spec op "/") as [->|_]; [destruct Hop; set_solver|].
  done.
Qed.

Section parse_facts.
Implicit Types (ds fs rest : string) (c : ascii).

(** A digit is not white space, not a sign, not a dot, and does not start
    [Infinity]. *)
Lemma digit_head c r :
  is_Some (digit c) ->
  is_white c = false /\ sign (String c r) = (false, String c r) /\
  String.prefix "Infinity" (String c r) = false.
Proof.
  intros [d Hd]. revert Hd.
  destruct c as [[] [] [] [] [] [] [] []]; by vm_compute.
Qed.

(** [digits] reads a string of digits to its end and stops at what
    follows, when that is not a digit. *)
Lemma digits_all ds rest acc n :
  all_digits ds = true ->
  match rest with String c _ => digit c = None | EmptyString => True end ->
  digits (ds ++ rest)%string acc n
  = (decimal_value ds acc, n + String.length ds, rest).
Proof.
  intros Hds Hrest. revert acc n.
  induction ds as [|c ds IH]; intros acc n; simpl.
  - rewrite Nat.add_0_r. destruct rest as [|c r]; [done|]. simpl. by rewrite Hrest.
  - simpl in Hds. apply andb_true_iff in Hds as [Hc Hds].
    apply bool_decide_eq_true in Hc as [d Hd]. rewrite Hd, (IH Hds).
    do 2 f_equal. lia.
Qed.

Lemma append_empty_r (s : string) : (s +:+ "")%string = s.
Proof.
  induction s as [|c s IH]; [done|].
  change (String c (s +:+ "") = String c s). by rewrite IH.
Qed.

(** [parseInt] reads the digits before the dot and drops the rest. *)
Lemma parseInt_truncates ds fs :
  all_digits ds = true -> ds <> "" ->
  parseInt (ds +:+ "." +:+ fs) = number_of_decimal false (decimal_value ds 0) 0.
Proof.
  intros Hds Hne. destruct ds as [|c ds]; [done|].
  pose proof Hds as Hc. simpl in Hc. apply andb_true_iff in Hc as [Hc _].
  apply bool_decide_eq_true in Hc.
  destruct (digit_head c (ds +:+ "." +:+ fs) Hc) as (Hw & Hsign & _).
  unfold parseInt.
  change (String c ds +:+ "." +:+ fs) with (String c (ds +:+ "." +:+ fs)).
  simpl trim_start. rewrite Hw, Hsign.
  change (String c (ds +:+ "." +:+ fs)) with (String c ds +:+ "." +:+ fs).
  by rewrite digits_all.
Qed.

(** [parseFloat] reads the digits on both sides of the dot. *)
Lemma parseFloat_keeps_fraction ds fs :
  all_digits ds = true -> ds <> "" -> all_digits fs = true ->
  parseFloat (ds +:+ "." +:+ fs)
  = number_of_decimal false (decimal_value fs (decimal_value ds 0))
      (- Z.of_nat (String.length fs)).
Proof.
  intros Hds Hne Hfs. destruct ds as [|c ds]; [done|].
  pose proof Hds as Hc. simpl in Hc. apply andb_true_iff in Hc as [Hc _].
  apply bool_decide_eq_true in Hc.
  destruct (digit_head c (ds +:+ "." +:+ fs) Hc) as (Hw & Hsign & Hinf).
  unfold parseFloat.
  change (String c ds +:+ "." +:+ fs) with (String c (ds +:+ "." +:+ fs)).
  simpl trim_start. rewrite Hw, Hsign, Hinf.
  change (String c (ds +:+ "." +:+ fs)) with (String c ds +:+ "." +:+ fs).
  rewrite digits_all by done.
  change ("." +:+ fs) with (String "." fs). cbv iota beta.
  rewrite <- (append_empty_r fs) at 1. rewrite digits_all by done.
  simpl. done.
Qed.
(** On a string of digits the two parses read the same integer. *)
Lemma parse_integer_agree ds :
  all_digits ds = true -> ds <> "" -> parseInt ds = parseFloat ds.
Proof.
  intros Hds Hne. destruct ds as [|c ds]; [done|].
  pose proof Hds as Hc. simpl in Hc. apply andb_true_iff in Hc as [Hc _].
  apply bool_decide_eq_true in Hc.
  destruct (digit_head c ds Hc) as (Hw & Hsign & Hinf).
  unfold parseInt, parseFloat. simpl trim_start. rewrite Hw, Hsign, Hinf.
  rewrite <- (append_empty_r (String c ds)), digits_all by done.
  done.
Qed.

Lemma integer_literals_agree (t : node) :
  integer_literals t = true -> literals_agree t.
Proof.
  induction t as [c IH | op c IH | op l IHl r IHr | v | name]; simpl;
    intros Hint; [by apply IH | by apply IH | | | done].
  - apply andb_true_iff in Hint as [Hl Hr]. split; [by apply IHl | by apply IHr].
  - apply andb_true_iff in Hint as [Hd Hne]. apply parse_integer_agree; [done|].
    intros ->. done.
Qed.
End parse_facts.

Lemma float_two_neq : 2%float <> 2.5%float.
Proof. intros Heq. apply (f_equal Prim2SF) in Heq. by vm_compute in Heq. Qed.

(** C6. The direct walk gives a literal the value [parseInt] reads, which
    stops at the dot, and the compiled form gives it the value
    [parseFloat] reads, which keeps the fraction; on the literal [2.5]
    the two paths compute from 2 and from 2.5. *)
Theorem literal_parses_differ `{Runtime} :
  (forall value values,
      fastEvaluate_traverse (literal value) values = JNum (parseInt value) /\
      call (evaluate_traverse (literal value)) values
      = Return (JNum (parseFloat value))) /\
  (forall ds fs,
      all_digits ds = true -> ds <> "" -> all_digits fs = true ->
      parseInt (ds +:+ "." +:+ fs)
      = number_of_decimal false (decimal_value ds 0) 0 /\
      parseFloat (ds +:+ "." +:+ fs)
      = number_of_decimal false (decimal_value fs (decimal_value ds 0))
          (- Z.of_nat (String.length fs))) /\
  (exists value, forall values,
      fastEvaluate_traverse (literal value) values = JNum 2 /\
      call (evaluate_traverse (literal value)) values = Return (JNum 2.5) /\
      JNum 2 <> JNum 2.5).
Proof.
  split; [done|]. split.
  - intros ds fs Hds Hne Hfs.
    split; [by apply parseInt_truncates | by apply parseFloat_keeps_fraction].
  - exists "2.5". intros values. split; [done|]. split; [done|].
    intros Heq. apply float_two_neq. congruence.
Qed.

(** Dividing by a zero of either sign gives an infinity or [NaN]. *)
Lemma div_zero_cases (x z : float) :
  is_zero z = true ->
  (x / z)%float = infinity \/ (x / z)%float = neg_infinity \/
  (x / z)%float = nan.
Proof.
  unfold is_zero. rewrite FloatAxioms.eqb_spec. intros Hz.
  rewrite <- (SF2Prim_Prim2SF (x / z)), div_spec.
  assert (exists s, Prim2SF z = S754_zero s) as [s Hs].
  { destruct (Prim2SF z) as [s|s| |s m e]; [by exists s| | |].
    all: vm_compute in Hz; try discriminate.
    all: destruct s; discriminate. }
  rewrite Hs.
  destruct (Prim2SF x) as [s'|s'| |s' m e]; destruct s; try destruct s';
    vm_compute; auto.
Qed.

(** C8. Neither evaluator turns a division by zero into an error: with
    bindings that pass the checks (as many keys as unknowns, every unknown
    a key, and [hasOwnProperty] not a key when there is an unknown to
    check) both return, [calc] the value of the tree and [fastEvaluate]
    the result of its walk; in either a division whose right operand is
    zero has the quotient of the Numbers of its operands, an infinity or
    [NaN]; and when the expression itself is such a division, that is
    what [calc] and [fastEvaluate] return. *)
Theorem division_by_zero_propagates `{Runtime} (expression : string)
    (parse_tree : node) (us : list string) (values : bindings) :
  accepted expression parse_tree us ->
  well_formed parse_tree = true ->
  size values = length us ->
  Forall (fun u => is_Some (values !! u)) us ->
  presence_check_runs us values ->
  (exists ev,
      evaluate expression = Return ev /\
      calc ev values = Return (tree_value parse_tree values)) /\
  fastEvaluate expression values
  = Return (fastEvaluate_traverse parse_tree values) /\
  (forall l r,
      is_zero (ToNumber (tree_value r values)) = true ->
      tree_value (binary_operator "/" l r) values
      = JNum (ToNumber (tree_value l values) / ToNumber (tree_value r values)) /\
      infinite_or_nan (tree_value (binary_operator "/" l r) values)) /\
  (forall l r,
      is_zero (ToNumber (fastEvaluate_traverse r values)) = true ->
      fastEvaluate_traverse (binary_operator "/" l r) values
      = JNum (ToNumber (fastEvaluate_traverse l values) /
              ToNumber (fastEvaluate_traverse r values)) /\
      infinite_or_nan (fastEvaluate_traverse (binary_operator "/" l r) values)) /\
  (forall l r,
      parse_tree = binary_operator "/" l r ->
      (is_zero (ToNumber (tree_value r values)) = true ->
       exists ev v,
         evaluate expression = Return ev /\
         calc ev values = Return v /\ infinite_or_nan v) /\
      (is_zero (ToNumber (fastEvaluate_traverse r values)) = true ->
       exists v,
         fastEvaluate expression values = Return v /\ infinite_or_nan v)).
Proof.
  intros Hacc Hwf Hsz Hall Hrun.
  pose proof (proj2 (checks_error_None us values) (conj Hsz (conj Hall Hrun)))
    as Hok.
  assert (forall a b, is_zero (ToNumber b) = true ->
            infinite_or_nan (js_div a b)) as Hdiv.
  { intros a b Hz. unfold infinite_or_nan, js_div.
    destruct (div_zero_cases (ToNumber a) (ToNumber b) Hz) as [-> | [-> | ->]];
      auto. }
  split; [|split; [|split; [|split]]].
  - eexists. split; [by apply evaluate_accepted|]. simpl.
    by rewrite checks_error_calc, Hok, call_evaluate_traverse.
  - by rewrite (checks_error_fastEvaluate _ _ _ _ Hacc), Hok.
  - intros l r Hz. split; [done|]. by apply Hdiv.
  - intros l r Hz. split; [done|]. by apply Hdiv.
  - intros l r Htree. split; intros Hz.
    + eexists _, _. split; [by apply evaluate_accepted|]. simpl.
      rewrite checks_error_calc, Hok, call_evaluate_traverse by done.
      split; [done|]. rewrite Htree. by apply Hdiv.
    + eexists. rewrite (checks_error_fastEvaluate _ _ _ _ Hacc), Hok.
      split; [done|]. rewrite Htree. by apply Hdiv.
Qed.

Lemma division_by_zero_propagates_witness :
  let parse_tree := binary_operator "/" (literal "1") (literal "0") in
  let R := fixed_runtime parse_tree [] in
  let values : bindings := ∅ in
  (accepted "1 / 0" parse_tree [] /\ well_formed parse_tree = true /\
   size values = length ([] : list string) /\
   Forall (fun u => is_Some (values !! u)) [] /\
   presence_check_runs [] values) /\
  (exists ev,
      evaluate "1 / 0" = Return ev /\
      calc ev values = Return (JNum infinity)) /\
  fastEvaluate "1 / 0" values = Return (JNum infinity).
Proof.
  intros parse_tree R values.
  assert (accepted "1 / 0" parse_tree []) as Hacc.
  { exists [], []. repeat split; reflexivity. }
  assert (well_formed parse_tree = true) as Hwf by reflexivity.
  assert (size values = length ([] : list string)) as Hsz by reflexivity.
  assert (Forall (fun u => is_Some (values !! u)) []) as Hall by constructor.
  assert (presence_check_runs [] values) as Hrun by (by left).
  split; [done|].
  destruct (division_by_zero_propagates "1 / 0" parse_tree [] values
              Hacc Hwf Hsz Hall Hrun) as (Hcalc & Hfast & _).
  split; [exact Hcalc | exact Hfast].
Defined.

(** C1 fails on exponentiation. On an expression whose tree is an
    exponentiation, as [2 ^ 3], and with bindings that pass the checks
    (as many keys as unknowns, every unknown a key, and [hasOwnProperty]
    not a key when there is an unknown to check), [calc] returns a Number,
    [left ** right], and [fastEvaluate], whose walk has no case for [^],
    returns [undefined]. *)
Theorem evaluators_disagree_on_power `{Runtime} (expression : string)
    (l r : node) (us : list string) (values : bindings) :
  accepted expression (binary_operator "^" l r) us ->
  well_formed l = true -> well_formed r = true ->
  size values = length us ->
  Forall (fun u => is_Some (values !! u)) us ->
  presence_check_runs us values ->
  exists ev,
    evaluate expression = Return ev /\
    calc ev values
    = Return (JNum (pow (ToNumber (tree_value l values))
                        (ToNumber (tree_value r values)))) /\
    fastEvaluate expression values = Return JUndefined.
Proof.
  intros Hacc Hl Hr Hsz Hall Hrun.
  pose proof (proj2 (checks_error_None us values) (conj Hsz (conj Hall Hrun)))
    as Hok.
  eexists. split; [by apply evaluate_accepted|]. split.
  - simpl. rewrite checks_error_calc, Hok. simpl.
    by rewrite !call_evaluate_traverse.
  - by rewrite (checks_error_fastEvaluate _ _ _ _ Hacc), Hok.
Qed.

Lemma evaluators_disagree_on_power_witness :
  let R := fixed_runtime (binary_operator "^" (literal "2") (literal "3")) [] in
  (accepted "2 ^ 3" (binary_operator "^" (literal "2") (literal "3")) [] /\
   well_formed (literal "2") = true /\ well_formed (literal "3") = true /\
   size (∅ : bindings) = length ([] : list string) /\
   Forall (fun u => is_Some ((∅ : bindings) !! u)) [] /\
   presence_check_runs [] (∅ : bindings)) /\
  exists ev,
    evaluate "2 ^ 3" = Return ev /\
    calc ev ∅ = Return (JNum 8) /\
    fastEvaluate "2 ^ 3" ∅ = Return JUndefined.
Proof.
  intros R.
  assert (accepted "2 ^ 3" (binary_operator "^" (literal "2") (literal "3")) [])
    as Hacc.
  { exists [], []. repeat split; reflexivity. }
  assert (Forall (fun u => is_Some ((∅ : bindings) !! u)) []) as Hall
    by constructor.
  assert (presence_check_runs [] (∅ : bindings)) as Hrun by (by left).
  split; [by repeat split|].
  exact (evaluators_disagree_on_power "2 ^ 3" (literal "2") (literal "3") [] ∅
           Hacc eq_refl eq_refl eq_refl Hall Hrun).
Defined.

(** Away from exponentiation the two evaluators agree: on a tree of the
    data model without [^] whose literals are strings of digits, [calc]
    and [fastEvaluate] have the same outcome for every binding mapping. *)
Lemma evaluators_agree_power_free `{Runtime} (expression : string)
    (parse_tree : node) (us : list string) (values : bindings) :
  accepted expression parse_tree us ->
  well_formed parse_tree = true -> power_free parse_tree = true ->
  integer_literals parse_tree = true ->
  exists ev,
    evaluate expression = Return ev /\
    calc ev values = fastEvaluate expression values.
Proof.
  intros Hacc Hwf Hpf Hlit%integer_literals_agree. eexists.
  split; [by apply evaluate_accepted|].
  simpl. rewrite checks_error_calc, (checks_error_fastEvaluate _ _ _ _ Hacc).
  destruct (checks_error us values); [done|].
  by rewrite call_evaluate_traverse, fastEvaluate_traverse_value.
Qed.

(** * The examples of the specification *)

Example parentheses_nested :
  parentheses [tk "paren_open"; tk "number"; tk "operator"; tk "paren_open";
               tk "number"; tk "paren_close"; tk "paren_close"]
  = Return [Paren 0 (Some 7) 1; Paren 3 (Some 6) 2].
Proof. reflexivity. Qed.

Example parentheses_siblings :
  parentheses [tk "paren_open"; tk "paren_close"; tk "paren_open";
               tk "paren_close"]
  = Return [Paren 0 (Some 2) 1; Paren 2 (Some 4) 1].
Proof. reflexivity. Qed.

Example parentheses_excess :
  parentheses [tk "paren_open"; tk "paren_close"; tk "paren_close";
               tk "paren_open"]
  = Throw (BadParenthesesSyntax 2).
Proof. reflexivity. Qed.

Example parentheses_unclosed :
  parentheses [tk "paren_open"; tk "paren_open"; tk "paren_close"]
  = Return [Paren 0 None 1; Paren 1 (Some 3) 2].
Proof. reflexivity. Qed.

Example calc_substitution :
  let R := fixed_runtime x_plus_y_times_2 ["x"; "y"] in
  (try! ev := evaluate "x + y * 2" in
   calc ev {[ "x" := 1%float; "y" := 3%float ]})
  = Return (JNum 7).
Proof. by vm_compute. Qed.

Example calc_arity_mismatch :
  let R := fixed_runtime x_plus_y_times_2 ["x"; "y"] in
  (try! ev := evaluate "x + y * 2" in calc ev {[ "x" := 1%float ]})
  = Throw (IncorrectNumberOfValues 2 1).
Proof. by vm_compute. Qed.

Example calc_missing_variable :
  let R := fixed_runtime x_plus_y_times_2 ["x"; "y"] in
  (try! ev := evaluate "x + y * 2" in
   calc ev {[ "x" := 1%float; "z" := 3%float ]})
  = Throw (MissingValue "y").
Proof. by vm_compute. Qed.

Example fastEvaluate_substitution :
  let R := fixed_runtime x_plus_y_times_2 ["x"; "y"] in
  fastEvaluate "x + y * 2" {[ "x" := 1%float; "y" := 3%float ]}
  = Return (JNum 7).
Proof. by vm_compute. Qed.

Example fastEvaluate_missing_variable :
  let R := fixed_runtime x_plus_y_times_2 ["x"; "y"] in
  fastEvaluate "x + y * 2" {[ "x" := 1%float; "z" := 3%float ]}
  = Throw (MissingValue "y").
Proof. by vm_compute. Qed.

Example calc_shadowed_hasOwnProperty_missing :
  let R := fixed_runtime x_plus_y_times_2 ["x"; "y"] in
  (try! ev := evaluate "x + y * 2" in
   calc ev {[ "x" := 1%float; "hasOwnProperty" := 5%float ]})
  = Throw HasOwnPropertyNotAFunction.
Proof. by vm_compute. Qed.

Example fastEvaluate_shadowed_hasOwnProperty_present :
  let R := fixed_runtime
             (binary_operator "/" (literal "1") (variable "hasOwnProperty"))
             ["hasOwnProperty"] in
  fastEvaluate "1 / hasOwnProperty" {[ "hasOwnProperty" := 0%float ]}
  = Throw HasOwnPropertyNotAFunction.
Proof. by vm_compute. Qed.

Example calc_inherited_member :
  let R := fixed_runtime
             (binary_operator "+" (variable "toString") (variable "x")) ["x"] in
  (try! ev := evaluate "toString + x" in calc ev {[ "x" := 1%float ]})
  = Return (JConcat (JInherited "toString") (JNum 1)) /\
  fastEvaluate "toString + x" {[ "x" := 1%float ]}
  = Return (JConcat (JInherited "toString") (JNum 1)).
Proof. by vm_compute. Qed.

Example calc_inherited_member_product :
  let R := fixed_runtime
             (binary_operator "*" (variable "valueOf") (variable "x")) ["x"] in
  (try! ev := evaluate "valueOf * x" in calc ev {[ "x" := 1%float ]})
  = Return (JNum nan).
Proof. by vm_compute. Qed.

Example zero_by_zero :
  let R := fixed_runtime (binary_operator "/" (literal "0") (literal "0")) [] in
  fastEvaluate "0 / 0" ∅ = Return (JNum nan).
Proof. by vm_compute. Qed.

Example parse_two_and_a_half :
  parseInt "2.5" = 2%float /\ parseFloat "2.5" = 2.5%float.
Proof. by vm_compute. Qed.

Example message_bad_parentheses :
  message (BadParenthesesSyntax 2) = "Bad parentheses syntax at index 2".
Proof. reflexivity. Qed.

Example message_arity :
  message (IncorrectNumberOfValues 2 1)
  = "Incorrect number of values passed: should be 2 and is 1".
Proof. reflexivity. Qed.

Example message_missing :
  message (MissingValue "y") = "Missing value for variable y".
Proof. reflexivity. Qed.

Example calc_power_right_nested :
  let R := fixed_runtime
             (binary_operator "^" (literal "2")
                (binary_operator "^" (literal "3") (literal "2"))) [] in
  (try! ev := evaluate "2 ^ 3 ^ 2" in calc ev ∅) = Return (JNum 512) /\
  fastEvaluate "2 ^ 3 ^ 2" ∅ = Return JUndefined.
Proof. by vm_compute. Qed.

Example power_inside_sum :
  let R := fixed_runtime
             (binary_operator "+" (literal "1")
                (binary_operator "^" (literal "2") (literal "3"))) [] in
  (try! ev := evaluate "1 + 2 ^ 3" in calc ev ∅) = Return (JNum 9) /\
  fastEvaluate "1 + 2 ^ 3" ∅ = Return (JNum nan).
Proof. by vm_compute. Qed.

Example unary_minus_block :
  let R := fixed_runtime
             (unary_operator "-"
                (block (binary_operator "+" (literal "3") (literal "4")))) [] in
  (try! ev := evaluate "-(3 + 4)" in calc ev ∅) = Return (JNum (-7)) /\
  fastEvaluate "-(3 + 4)" ∅ = Return (JNum (-7)).
Proof. by vm_compute. Qed.

Example decimal_literal_disagreement :
  let R := fixed_runtime (literal "2.5") [] in
  (try! ev := evaluate "2.5" in calc ev ∅) = Return (JNum 2.5) /\
  fastEvaluate "2.5" ∅ = Return (JNum 2).
Proof. by vm_compute. Qed.

(** * Further properties: parentheses.js *)

Section scan_composition.
Implicit Types (ts rest : list token) (P Q R : list paren) (b : paren).

(** A scan that returns can be resumed: more tokens are read from the
    state it has reached. *)
Lemma scan_app rest : forall i P L P' rest2,
  scan rest i P L = Return P' ->
  scan (rest ++ rest2) i P L
  = scan rest2 (i + length rest) P' (L + depth rest)%Z.
Proof.
  induction rest as [|t rest IH]; intros i P L P' rest2 Hret; simpl in *.
  - injection Hret as <-. by rewrite Nat.add_0_r, Z.add_0_r.
  - unfold delta.
    destruct (String.eqb (type t) "paren_open").
    { rewrite (IH _ _ _ _ rest2 Hret). f_equal; lia. }
    destruct (String.eqb (type t) "paren_close").
    { destruct (L - 1 <? 0)%Z; [done|].
      rewrite (IH _ _ _ _ rest2 Hret). f_equal; lia. }
    rewrite (IH _ _ _ _ rest2 Hret). f_equal; lia.
Qed.

Lemma close_last_at_pending Q1 b Q2 i :
  end_ b = None ->
  Forall (fun x => falsy (end_ x) = false) Q2 ->
  close_last (length (Q1 ++ b :: Q2)) (Q1 ++ b :: Q2) i
  = Q1 ++ set_end b (i + 1) :: Q2.
Proof.
  intros Hb HQ2.
  pose proof (close_last_found Q1 b Q2 [] i) as Hcl.
  rewrite !app_nil_r in Hcl.
  replace (length (Q1 ++ b :: Q2)) with (length Q1 + 1 + length Q2)
    by (rewrite length_app; simpl; lia).
  apply Hcl; [by rewrite Hb | done].
Qed.

Lemma embed_paren_set_end n dl b e :
  embed_paren n dl (set_end b e) = set_end (embed_paren n dl b) (n + e).
Proof. done. Qed.

(** The inner loop does the same on blocks that sit after others and
    are seen further right, as long as one of them is pending. *)
Lemma close_last_embed n dl P Q i :
  Forall (fun b => end_ b <> Some 0) Q ->
  filter (fun b => end_ b = None) Q <> [] ->
  close_last (length (P ++ (embed_paren n dl <$> Q)))
             (P ++ (embed_paren n dl <$> Q)) (n + i)
  = P ++ (embed_paren n dl <$> close_last (length Q) Q i) /\
  Forall (fun b => end_ b <> Some 0) (close_last (length Q) Q i) /\
  S (length (filter (fun b => end_ b = None) (close_last (length Q) Q i)))
  = length (filter (fun b => end_ b = None) Q).
Proof.
  intros Hz Hpend.
  destruct (last_pending Q) as [Hall | (Q1 & b & Q2 & -> & Hb & HQ2)].
  { by rewrite (filter_pending_closed _ Hall) in Hpend. }
  rewrite !Forall_app, Forall_cons in Hz. destruct Hz as (Hz1 & _ & Hz2).
  assert (Forall (fun x => falsy (end_ x) = false) Q2) as Hf2.
  { rewrite Forall_forall in *. intros x Hx.
    specialize (HQ2 x Hx). specialize (Hz2 x Hx).
    destruct (end_ x) as [[|e]|]; done. }
  rewrite (close_last_at_pending Q1 b Q2 i Hb Hf2).
  split; [|split].
  - rewrite !fmap_app, !fmap_cons, app_assoc.
    rewrite close_last_at_pending.
    + rewrite embed_paren_set_end, <- app_assoc. do 4 f_equal. lia.
    + simpl. by rewrite Hb.
    + rewrite Forall_fmap. rewrite Forall_forall in *. intros x Hx. simpl.
      specialize (HQ2 x Hx). specialize (Hz2 x Hx).
      destruct (end_ x) as [[|e]|]; try done. simpl.
      by replace (n + S e) with (S (n + e)) by lia.
  - rewrite !Forall_app, Forall_cons. split; [done|]. split; [|done].
    simpl. rewrite Nat.add_1_r. done.
  - rewrite !filter_app, !length_app.
    rewrite (filter_cons_True _ b) by done.
    rewrite filter_cons_False by done. simpl. lia.
Qed.

(** The scan of some tokens, started after [n] others with their blocks
    [P] in place and [dl] levels deep, does what the scan of the tokens
    alone does; it meets its errors only when it starts at level 0. *)
Lemma scan_embed n dl P ts : (0 <= dl)%Z -> forall i Q L,
  Forall (fun b => end_ b <> Some 0) Q ->
  Z.of_nat (length (filter (fun b => end_ b = None) Q)) = L ->
  match scan ts i Q L with
  | Return R =>
      scan ts (n + i) (P ++ (embed_paren n dl <$> Q)) (dl + L)
      = Return (P ++ (embed_paren n dl <$> R))
  | Throw e =>
      dl = 0%Z ->
      scan ts (n + i) (P ++ (embed_paren n dl <$> Q)) (dl + L)
      = Throw (embed_error n e)
  end.
Proof.
  intros Hdl. induction ts as [|t ts IH]; intros i Q L Hz Hcount; simpl.
  - done.
  - destruct (String.eqb (type t) "paren_open").
    { specialize (IH (S i) (Q ++ [Paren i None (L + 1)]) (L + 1)%Z).
      rewrite fmap_app, app_assoc in IH. simpl in IH.
      change (embed_paren n dl (Paren i None (L + 1)))
        with (Paren (n + i) None (dl + (L + 1))) in IH.
      replace (n + S i) with (S (n + i)) in IH by lia.
      replace (dl + (L + 1))%Z with (dl + L + 1)%Z in IH by lia.
      apply IH.
      - apply Forall_app. split; [done|]. by apply Forall_singleton.
      - rewrite filter_app, length_app, filter_cons_True by done.
        simpl. lia. }
    destruct (String.eqb (type t) "paren_close").
    2: { specialize (IH (S i) Q L Hz Hcount).
         by replace (n + S i) with (S (n + i)) in IH by lia. }
    destruct (Z.ltb_spec (L - 1) 0) as [Hneg|Hpos].
    { intros ->. simpl. destruct (Z.ltb_spec (0 + L - 1) 0); [done | lia]. }
    destruct (Z.ltb_spec (dl + L - 1) 0) as [?|_]; [lia|].
    assert (filter (fun b => end_ b = None) Q <> []) as Hpend.
    { intros Hnil. rewrite Hnil in Hcount. simpl in Hcount. lia. }
    destruct (close_last_embed n dl P Q i Hz Hpend) as (Hcl & Hz' & Hcount').
    rewrite Hcl.
    specialize (IH (S i) (close_last (length Q) Q i) (L - 1)%Z Hz').
    replace (n + S i) with (S (n + i)) in IH by lia.
    replace (dl + (L - 1))%Z with (dl + L - 1)%Z in IH by lia.
    apply IH. lia.
Qed.
End scan_composition.

Section parentheses_outcomes.
Implicit Types (tokens ts : list token) (b : paren).

Lemma scan_stops_at_excess_close tokens i :
  excess_close tokens i ->
  parentheses tokens = Throw (BadParenthesesSyntax i).
Proof.
  intros ((t & Ht & Hty) & Hz & Hnn).
  pose proof (lookup_lt_Some _ _ _ Ht) as Hlt.
  assert (length (take i tokens) = i) as Hlen by (rewrite length_take; lia).
  destruct (scan_run (take i tokens) [] [] 0%Z (t :: drop (S i) tokens)
              scan_inv_init) as (P' & HP' & _).
  { simpl. intros k Hk. rewrite depth_at_take by lia. apply Hnn. lia. }
  simpl in HP'. rewrite (take_drop_middle _ _ _ Ht) in HP'.
  unfold parentheses. rewrite HP', Hlen.
  change (depth (take i tokens)) with (depth_at tokens i). rewrite Hz.
  simpl. rewrite Hty. reflexivity.
Qed.

(** Either the depth never goes negative, or some token is an excess
    closing parenthesis. *)
Lemma never_negative_or_excess_close tokens :
  never_negative tokens \/ exists i, excess_close tokens i.
Proof.
  destruct (excess_close_or_nonnegative tokens (length tokens))
    as [Hnn | (i & _ & Hex)]; [left | right; by exists i].
  intros k. destruct (decide (k <= length tokens)) as [?|?]; [by apply Hnn|].
  rewrite depth_at_all by lia. rewrite <- (depth_at_all tokens (length tokens)) by lia.
  by apply Hnn.
Qed.

Lemma excess_close_unique tokens i j :
  excess_close tokens i -> excess_close tokens j -> i = j.
Proof.
  intros Hi Hj.
  pose proof (scan_stops_at_excess_close _ _ Hi) as H1.
  pose proof (scan_stops_at_excess_close _ _ Hj) as H2.
  congruence.
Qed.

(** On balanced tokens every returned block is closed, by an [end] that
    is not 0. *)
Lemma balanced_parens_closed tokens :
  balanced tokens ->
  exists blocks,
    parentheses tokens = Return blocks /\
    Forall (fun b => falsy (end_ b) = false) blocks.
Proof.
  intros [Hnn Hz]. destruct (parentheses_run tokens Hnn) as (blocks & Hret & I).
  exists blocks. split; [done|]. apply Forall_forall. intros b Hin.
  apply (closed_not_falsy _ _ _ _ I Hin).
  destruct (inv_stack _ _ _ I) as (n & Hn & Hlv).
  assert (n = 0) as -> by lia. simpl in Hlv.
  apply fmap_nil_inv, pending_closed_filter in Hlv.
  rewrite Forall_forall in Hlv. by apply Hlv.
Qed.
Lemma parentheses_Return_never_negative tokens blocks :
  parentheses tokens = Return blocks -> never_negative tokens.
Proof.
  intros Hret.
  destruct (never_negative_or_excess_close tokens) as [?|[i Hex]]; [done|].
  rewrite (scan_stops_at_excess_close _ _ Hex) in Hret. done.
Qed.
End parentheses_outcomes.

(** X1. [parentheses] returns normally exactly when the running depth
    never goes negative: unclosed parentheses at the end of the input are
    no obstacle, a closing parenthesis with nothing open always is. *)
Theorem parentheses_returns_iff (tokens : list token) :
  (exists blocks, parentheses tokens = Return blocks) <-> never_negative tokens.
Proof.
  split.
  - intros [blocks Hret].
    destruct (never_negative_or_excess_close tokens) as [?|[i Hex]]; [done|].
    rewrite (scan_stops_at_excess_close _ _ Hex) in Hret. done.
  - intros Hnn. destruct (parentheses_run tokens Hnn) as (blocks & Hret & _).
    by exists blocks.
Qed.

(** X2. The only error [parentheses] raises is the bad-parentheses error,
    and the index it reports is that of the first closing parenthesis
    with nothing open, which is the only excess one. *)
Theorem parentheses_throws_iff (tokens : list token) (e : error) :
  parentheses tokens = Throw e <->
  exists i, e = BadParenthesesSyntax i /\ excess_close tokens i /\
            forall j, excess_close tokens j -> j = i.
Proof.
  split.
  - intros Hthrow.
    destruct (never_negative_or_excess_close tokens) as [Hnn|[i Hex]].
    + destruct (parentheses_run tokens Hnn) as (blocks & Hret & _). congruence.
    + exists i. rewrite (scan_stops_at_excess_close _ _ Hex) in Hthrow.
      split; [congruence|]. split; [done|].
      intros j Hj. by apply (excess_close_unique tokens).
  - intros (i & -> & Hex & _). by apply scan_stops_at_excess_close.
Qed.

Section find_close_facts.
Implicit Types (rest pre tokens : list token).

(** [find_close] stops at the first position where the depth is back to
    the depth [D0] before the opening token. *)
Lemma find_close_first rest : forall pre D0 c,
  length pre <= c < length (pre ++ rest) ->
  depth_at (pre ++ rest) (S c) = D0 ->
  (forall k, length pre < k <= c -> depth_at (pre ++ rest) k <> D0) ->
  find_close rest (length pre) (depth pre - D0) = Some c.
Proof.
  induction rest as [|t rest IH]; intros pre D0 c Hc Hd Hk; simpl.
  - rewrite app_nil_r in Hc. lia.
  - assert (pre ++ t :: rest = (pre ++ [t]) ++ rest) as Hsplit
      by (by rewrite <- app_assoc).
    assert (length (pre ++ [t]) = S (length pre)) as Hlen
      by (rewrite length_app; simpl; lia).
    assert (depth_at (pre ++ t :: rest) (S (length pre)) = depth pre + delta t)%Z
      as Hnext.
    { rewrite Hsplit, depth_at_app_le by lia. rewrite <- Hlen.
      rewrite depth_at_all by lia. apply depth_snoc. }
    destruct (Z.eqb_spec (depth pre - D0 + delta t) 0) as [Hzero|Hnz].
    + destruct (decide (c = length pre)) as [->|Hne]; [done|].
      destruct (Hk (S (length pre))); [lia|]. rewrite Hnext. lia.
    + destruct (decide (c = length pre)) as [->|Hne].
      { rewrite Hnext in Hd. lia. }
      specialize (IH (pre ++ [t]) D0 c).
      rewrite Hlen, depth_snoc, <- Hsplit in IH.
      replace (depth pre + delta t - D0)%Z with (depth pre - D0 + delta t)%Z
        in IH by lia.
      apply IH; [lia | done | intros k Hkk; apply Hk; lia].
Qed.

Lemma find_close_none rest : forall pre D0,
  (forall k, length pre < k <= length (pre ++ rest) ->
             depth_at (pre ++ rest) k <> D0) ->
  find_close rest (length pre) (depth pre - D0) = None.
Proof.
  induction rest as [|t rest IH]; intros pre D0 Hk; simpl; [done|].
  assert (pre ++ t :: rest = (pre ++ [t]) ++ rest) as Hsplit
    by (by rewrite <- app_assoc).
  assert (length (pre ++ [t]) = S (length pre)) as Hlen
    by (rewrite length_app; simpl; lia).
  assert (depth_at (pre ++ t :: rest) (S (length pre)) = depth pre + delta t)%Z
    as Hnext.
  { rewrite Hsplit, depth_at_app_le by lia. rewrite <- Hlen.
    rewrite depth_at_all by lia. apply depth_snoc. }
  destruct (Z.eqb_spec (depth pre - D0 + delta t) 0) as [Hzero|Hnz].
  - destruct (Hk (S (length pre))).
    + rewrite length_app. simpl. lia.
    + rewrite Hnext. lia.
  - specialize (IH (pre ++ [t]) D0).
    rewrite Hlen, depth_snoc, <- Hsplit in IH.
    replace (depth pre + delta t - D0)%Z with (depth pre - D0 + delta t)%Z
      in IH by lia.
    apply IH. intros k Hkk. apply Hk. lia.
Qed.

(** At an opening token, [find_close] finds the matching closing token. *)
Lemma find_close_matching tokens s c :
  is_open tokens s -> matching tokens s c ->
  find_close (drop (S s) tokens) (S s) 1 = Some c.
Proof.
  intros Ho (Hsc & Hc & Hd & Hk).
  pose proof (is_open_lt _ _ Ho) as Hs. pose proof (is_close_lt _ _ Hc) as Hlt.
  pose proof (depth_at_open _ _ Ho) as Hone.
  pose proof (find_close_first (drop (S s) tokens) (take (S s) tokens)
                (depth_at tokens s) c) as Hf.
  rewrite take_drop, length_take in Hf.
  replace (S s `min` length tokens) with (S s) in Hf by lia.
  change (depth (take (S s) tokens)) with (depth_at tokens (S s)) in Hf.
  rewrite Hone in Hf.
  replace (depth_at tokens s + 1 - depth_at tokens s)%Z with 1%Z in Hf by lia.
  apply Hf; [lia | done | ].
  intros k Hkk. specialize (Hk k). lia.
Qed.

Lemma find_close_pending tokens s :
  is_open tokens s ->
  (forall k, s < k <= length tokens ->
             (depth_at tokens s < depth_at tokens k)%Z) ->
  find_close (drop (S s) tokens) (S s) 1 = None.
Proof.
  intros Ho Hk.
  pose proof (is_open_lt _ _ Ho) as Hs.
  pose proof (depth_at_open _ _ Ho) as Hone.
  pose proof (find_close_none (drop (S s) tokens) (take (S s) tokens)
                (depth_at tokens s)) as Hf.
  rewrite take_drop, length_take in Hf.
  replace (S s `min` length tokens) with (S s) in Hf by lia.
  change (depth (take (S s) tokens)) with (depth_at tokens (S s)) in Hf.
  rewrite Hone in Hf.
  replace (depth_at tokens s + 1 - depth_at tokens s)%Z with 1%Z in Hf by lia.
  apply Hf. intros k Hkk. specialize (Hk k). lia.
Qed.

Lemma open_indices_increasing ts : forall i p q a b,
  p < q -> open_indices ts i !! p = Some a -> open_indices ts i !! q = Some b ->
  a < b.
Proof.
  induction ts as [|t ts IH]; intros i p q a b Hpq Ha Hb; simpl in *.
  - by rewrite lookup_nil in Ha.
  - destruct (String.eqb (type t) "paren_open"); [|by eapply IH].
    destruct q as [|q]; [lia|]. simpl in Hb.
    destruct p as [|p]; simpl in Ha.
    + injection Ha as <-.
      assert (b ∈ open_indices ts (S i)) as Hin
        by (apply list_elem_of_lookup; eauto).
      apply elem_of_open_indices in Hin as (k & -> & _). lia.
    + eapply (IH (S i) p q); [lia | done..].
Qed.
End find_close_facts.

(** X3. When [parentheses] returns, the blocks come in the order of their
    opening tokens, one block for each: the starts are the indices of the
    opening tokens in increasing order, so there are as many blocks as
    opening tokens, closed or not. *)
Theorem parentheses_in_opening_order (tokens : list token) (blocks : list paren) :
  parentheses tokens = Return blocks ->
  start <$> blocks = open_indices tokens 0 /\
  length blocks = length (filter (fun t => type t = "paren_open") tokens) /\
  (forall p q b1 b2,
      p < q -> blocks !! p = Some b1 -> blocks !! q = Some b2 ->
      start b1 < start b2).
Proof.
  intros Hret.
  assert (never_negative tokens) as Hnn
    by (by eapply parentheses_Return_never_negative).
  destruct (parentheses_run tokens Hnn) as (blocks' & Hret' & I).
  assert (blocks' = blocks) as -> by congruence.
  pose proof (inv_starts _ _ _ I) as Hstarts.
  split; [done|]. split.
  - rewrite <- (length_fmap start), Hstarts. clear.
    generalize 0. induction tokens as [|t ts IH]; intros i; simpl; [done|].
    destruct (String.eqb_spec (type t) "paren_open") as [Ht|Ht].
    + rewrite filter_cons_True by done. simpl. by rewrite IH.
    + rewrite filter_cons_False by done. apply IH.
  - intros p q b1 b2 Hpq Hb1 Hb2.
    apply (open_indices_increasing tokens 0 p q); [done | |].
    + by rewrite <- Hstarts, list_lookup_fmap, Hb1.
    + by rewrite <- Hstarts, list_lookup_fmap, Hb2.
Qed.

Lemma parentheses_in_opening_order_witness :
  let tokens := [tk "paren_open"; tk "number"; tk "paren_close";
                 tk "paren_open"; tk "paren_open"] in
  let blocks := [Paren 0 (Some 3) 1; Paren 3 None 1; Paren 4 None 2] in
  parentheses tokens = Return blocks /\
  start <$> blocks = open_indices tokens 0 /\
  length blocks = length (filter (fun t => type t = "paren_open") tokens) /\
  (forall p q b1 b2,
      p < q -> blocks !! p = Some b1 -> blocks !! q = Some b2 ->
      start b1 < start b2).
Proof.
  intros tokens blocks.
  assert (parentheses tokens = Return blocks) as H by reflexivity.
  split; [exact H|]. exact (parentheses_in_opening_order tokens blocks H).
Defined.

(** X4. What [parentheses] returns, in closed form: for each opening
    token, in order, the block that starts there, ends one past the
    first later position where the depth is back to what it was before
    the token ([null] when there is none), and has the depth just after
    the token as its level. *)
Theorem parentheses_closed_form (tokens : list token) :
  never_negative tokens ->
  parentheses tokens = Return (expected_parens tokens).
Proof.
  intros Hnn. destruct (parentheses_run tokens Hnn) as (blocks & Hret & I).
  rewrite Hret. f_equal. unfold expected_parens.
  rewrite <- (inv_starts _ _ _ I), <- list_fmap_compose.
  rewrite <- (list_fmap_id blocks) at 1.
  apply list_fmap_ext. intros p b Hp. simpl.
  assert (b ∈ blocks) as Hin by (apply list_elem_of_lookup; eauto).
  pose proof (scan_inv_open_at _ _ _ _ I Hin) as Ho.
  destruct b as [s e l]. unfold expected_paren. simpl in *. f_equal.
  - destruct e as [e|].
    + destruct (inv_closed _ _ _ I _ e Hin eq_refl) as (c & -> & Hm).
      simpl in Hm. rewrite (find_close_matching _ _ _ Ho Hm). simpl.
      by rewrite Nat.add_1_r.
    + rewrite (find_close_pending _ _ Ho); [done|].
      apply (inv_pending _ _ _ I _ Hin eq_refl).
  - apply (inv_depth _ _ _ I _ Hin).
Qed.

Lemma parentheses_closed_form_witness :
  let tokens := [tk "paren_open"; tk "paren_open"; tk "number";
                 tk "paren_close"; tk "operator"; tk "paren_open"] in
  never_negative tokens /\
  parentheses tokens
  = Return [Paren 0 None 1; Paren 1 (Some 4) 2; Paren 5 None 2].
Proof.
  intros tokens.
  assert (never_negative tokens) as H by never_negative_by_cases.
  split; [exact H|]. exact (parentheses_closed_form tokens H).
Defined.

Section slices.
Implicit Types (tokens ts : list token).

Lemma depth_take_drop tokens n j :
  depth (take j (drop n tokens))
  = (depth_at tokens (n + j) - depth_at tokens n)%Z.
Proof.
  unfold depth_at. rewrite <- (take_take_drop tokens n j), depth_app. lia.
Qed.

Lemma scan_throw_app rest : forall i P L e rest2,
  scan rest i P L = Throw e -> scan (rest ++ rest2) i P L = Throw e.
Proof.
  induction rest as [|t rest IH]; intros i P L e rest2 Hthrow; simpl in *;
    [done|].
  destruct (String.eqb (type t) "paren_open"); [by apply IH|].
  destruct (String.eqb (type t) "paren_close"); [|by apply IH].
  destruct (L - 1 <? 0)%Z; [done | by apply IH].
Qed.
End slices.

(** X5. A closed block delimits a balanced stretch of tokens: it starts
    at an opening token, its [end] is at least two further and within the
    input, the token before [end] is a closing one, and the tokens
    strictly between the two are balanced. *)
Theorem parentheses_block_encloses_balanced (tokens : list token)
    (blocks : list paren) (b : paren) (e : nat) :
  parentheses tokens = Return blocks ->
  b ∈ blocks -> end_ b = Some e ->
  start b + 2 <= e <= length tokens /\
  is_open tokens (start b) /\ is_close tokens (e - 1) /\
  balanced (take (e - start b - 2) (drop (S (start b)) tokens)).
Proof.
  intros Hret Hin He.
  assert (never_negative tokens) as Hnn
    by (by eapply parentheses_Return_never_negative).
  destruct (parentheses_run tokens Hnn) as (blocks' & Hret' & I).
  assert (blocks' = blocks) as -> by congruence.
  pose proof (scan_inv_open_at _ _ _ _ I Hin) as Ho.
  destruct (inv_closed _ _ _ I b e Hin He) as (c & -> & Hsc & Hc & Hd & Hk).
  pose proof (is_close_lt _ _ Hc) as Hlt.
  pose proof (depth_at_open _ _ Ho) as Hone.
  assert (depth_at tokens c = depth_at tokens (S (start b))) as Hdc.
  { destruct Hc as (t & Ht & Hty).
    rewrite (depth_at_S _ _ _ Ht), (delta_close _ Hty) in Hd. lia. }
  replace (S c - 1) with c by lia.
  split; [lia|]. split; [done|]. split; [done|]. split.
  - intros k. unfold depth_at. rewrite take_take, depth_take_drop.
    destruct (decide (k `min` (S c - start b - 2) = 0)) as [->|Hpos].
    + rewrite Nat.add_0_r. lia.
    + specialize (Hk (S (start b) + k `min` (S c - start b - 2))). lia.
  - rewrite depth_take_drop.
    replace (S (start b) + (S c - start b - 2)) with c by lia. lia.
Qed.

Lemma parentheses_block_encloses_balanced_witness :
  let tokens := [tk "number"; tk "paren_open"; tk "paren_open"; tk "number";
                 tk "paren_close"; tk "paren_close"; tk "paren_open"] in
  let blocks := [Paren 1 (Some 6) 1; Paren 2 (Some 5) 2; Paren 6 None 1] in
  let b := Paren 1 (Some 6) 1 in
  (parentheses tokens = Return blocks /\ b ∈ blocks /\ end_ b = Some 6) /\
  start b + 2 <= 6 <= length tokens /\
  is_open tokens (start b) /\ is_close tokens (6 - 1) /\
  balanced (take (6 - start b - 2) (drop (S (start b)) tokens)).
Proof.
  intros tokens blocks b.
  assert (parentheses tokens = Return blocks) as H1 by reflexivity.
  assert (b ∈ blocks) as H2 by (by apply elem_of_cons; left).
  assert (end_ b = Some 6) as H3 by reflexivity.
  split; [by repeat split|].
  exact (parentheses_block_encloses_balanced tokens blocks b 6 H1 H2 H3).
Defined.

(** X6. Resolving a concatenation: when both parts resolve on their own,
    the whole resolves to the blocks of the first part followed by those
    of the second, moved right by the length of the first part and deeper
    by the depth the first part leaves open. *)
Theorem parentheses_app (ts1 ts2 : list token) (b1 b2 : list paren) :
  parentheses ts1 = Return b1 -> parentheses ts2 = Return b2 ->
  parentheses (ts1 ++ ts2)
  = Return (b1 ++ (embed_paren (length ts1) (depth ts1) <$> b2)).
Proof.
  intros H1 H2.
  assert (never_negative ts1) as Hnn by (by eapply parentheses_Return_never_negative).
  assert (0 <= depth ts1)%Z as Hdl.
  { specialize (Hnn (length ts1)). by rewrite depth_at_all in Hnn by lia. }
  unfold parentheses in *. rewrite (scan_app ts1 0 [] 0%Z b1 ts2 H1). simpl.
  pose proof (scan_embed (length ts1) (depth ts1) b1 ts2 Hdl 0 [] 0%Z) as He.
  rewrite H2 in He. simpl in He.
  rewrite Nat.add_0_r, Z.add_0_r, app_nil_r in He. by apply He.
Qed.

Lemma parentheses_app_witness :
  let ts1 := [tk "paren_open"; tk "number"] in
  let ts2 := [tk "paren_open"; tk "paren_close"] in
  (parentheses ts1 = Return [Paren 0 None 1] /\
   parentheses ts2 = Return [Paren 0 (Some 2) 1]) /\
  parentheses (ts1 ++ ts2) = Return [Paren 0 None 1; Paren 2 (Some 4) 2].
Proof.
  intros ts1 ts2. split; [by split|].
  exact (parentheses_app ts1 ts2 [Paren 0 None 1] [Paren 0 (Some 2) 1]
           eq_refl eq_refl).
Defined.

(** X7. The first error settles the outcome: when the scan of some tokens
    throws, it throws the same error whatever follows them. *)
Theorem parentheses_prefix_throws (ts1 ts2 : list token) (e : error) :
  parentheses ts1 = Throw e -> parentheses (ts1 ++ ts2) = Throw e.
Proof. intros H. by apply scan_throw_app. Qed.

Lemma parentheses_prefix_throws_witness :
  let ts1 := [tk "paren_open"; tk "paren_close"; tk "paren_close"] in
  parentheses ts1 = Throw (BadParenthesesSyntax 2) /\
  parentheses (ts1 ++ [tk "paren_open"; tk "paren_open"])
  = Throw (BadParenthesesSyntax 2).
Proof.
  intros ts1. split; [reflexivity|].
  exact (parentheses_prefix_throws ts1 [tk "paren_open"; tk "paren_open"]
           (BadParenthesesSyntax 2) eq_refl).
Defined.

(** X8. After a balanced stretch of tokens the error of what follows is
    met at its place: the index reported is the one in the whole input. *)
Theorem parentheses_after_balanced_throws (ts1 ts2 : list token) (e : error) :
  balanced ts1 -> parentheses ts2 = Throw e ->
  parentheses (ts1 ++ ts2) = Throw (embed_error (length ts1) e).
Proof.
  intros [Hnn Hz] H2.
  destruct (parentheses_run ts1 Hnn) as (b1 & H1 & _).
  unfold parentheses in *. rewrite (scan_app ts1 0 [] 0%Z b1 ts2 H1). simpl.
  pose proof (scan_embed (length ts1) 0 b1 ts2 (Z.le_refl 0) 0 [] 0%Z) as He.
  rewrite H2 in He. simpl in He.
  rewrite Nat.add_0_r, app_nil_r in He. rewrite Hz. by apply He.
Qed.

Lemma parentheses_after_balanced_throws_witness :
  let ts1 := [tk "paren_open"; tk "number"; tk "paren_close"] in
  let ts2 := [tk "operator"; tk "paren_close"] in
  (balanced ts1 /\ parentheses ts2 = Throw (BadParenthesesSyntax 1)) /\
  parentheses (ts1 ++ ts2) = Throw (BadParenthesesSyntax 4).
Proof.
  intros ts1 ts2.
  assert (balanced ts1) as H.
  { split; [never_negative_by_cases | reflexivity]. }
  split; [by split|].
  exact (parentheses_after_balanced_throws ts1 ts2 (BadParenthesesSyntax 1)
           H eq_refl).
Defined.

(** X9. Putting a pair of parentheses around balanced tokens adds one
    block in front, from index 0 to the end at level 1, and moves the
    blocks of the tokens one to the right and one level deeper. *)
Theorem parentheses_wrap (o c : token) (ts : list token) (blocks : list paren) :
  type o = "paren_open" -> type c = "paren_close" ->
  balanced ts -> parentheses ts = Return blocks ->
  parentheses (o :: ts ++ [c])
  = Return (Paren 0 (Some (length ts + 2)) 1 :: (embed_paren 1 1 <$> blocks)).
Proof.
  intros Ho Hc Hbal Hret.
  destruct (balanced_parens_closed ts Hbal) as (blocks' & Hret' & Hclosed).
  assert (blocks' = blocks) as -> by congruence.
  destruct Hbal as [Hnn Hz].
  pose proof (scan_embed 1 1 [Paren 0 None 1] ts ltac:(lia) 0 [] 0%Z) as He.
  unfold parentheses in *. rewrite Hret in He. simpl in He.
  specialize (He ltac:(constructor) eq_refl).
  simpl. rewrite Ho. simpl.
  change (0 + 1)%Z with 1%Z.
  rewrite (scan_app ts 1 [Paren 0 None 1] 1%Z _ [c] He), Hz. simpl.
  assert (String.eqb (type c) "paren_open" = false) as ->
    by (by rewrite Hc).
  rewrite Hc. simpl. f_equal.
  pose proof (close_last_at_pending [] (Paren 0 None 1)
                (embed_paren 1 1 <$> blocks) (S (length ts))) as Hcl.
  simpl in Hcl. rewrite Hcl; [|done|].
  - unfold set_end. simpl. do 3 f_equal. lia.
  - rewrite Forall_fmap. rewrite Forall_forall in *. intros x Hx. simpl.
    specialize (Hclosed x Hx). by destruct (end_ x) as [[|e']|].
Qed.

Lemma parentheses_wrap_witness :
  let ts := [tk "number"; tk "operator"; tk "paren_open"; tk "number";
             tk "paren_close"] in
  (type (tk "paren_open") = "paren_open" /\
   type (tk "paren_close") = "paren_close" /\
   balanced ts /\ parentheses ts = Return [Paren 2 (Some 5) 1]) /\
  parentheses (tk "paren_open" :: ts ++ [tk "paren_close"])
  = Return [Paren 0 (Some 7) 1; Paren 3 (Some 6) 2].
Proof.
  intros ts.
  assert (balanced ts) as H.
  { split; [never_negative_by_cases | reflexivity]. }
  split.
  { split; [reflexivity|]. split; [reflexivity|]. split; [exact H | reflexivity]. }
  exact (parentheses_wrap (tk "paren_open") (tk "paren_close") ts
           [Paren 2 (Some 5) 1] eq_refl eq_refl H eq_refl).
Defined.

(** X10. Tokens without parentheses, the empty input among them, give no
    block and no error. *)
Theorem parentheses_without_parentheses (tokens : list token) :
  Forall (fun t => type t <> "paren_open" /\ type t <> "paren_close") tokens ->
  parentheses tokens = Return [].
Proof.
  intros Hall. unfold parentheses. generalize 0.
  induction Hall as [|t ts [Ho Hc] _ IH]; intros i; simpl; [done|].
  apply String.eqb_neq in Ho, Hc. by rewrite Ho, Hc.
Qed.

Lemma parentheses_without_parentheses_witness :
  let tokens := [tk "number"; tk "operator"; tk "identifier"] in
  Forall (fun t => type t <> "paren_open" /\ type t <> "paren_close") tokens /\
  parentheses tokens = Return [].
Proof.
  intros tokens.
  assert (Forall (fun t => type t <> "paren_open" /\ type t <> "paren_close")
            tokens) as H.
  { repeat constructor; discriminate. }
  split; [exact H|]. exact (parentheses_without_parentheses tokens H).
Defined.

(** * Further properties: evaluator.js *)

(** X11. Both evaluators fail with the error of the front end, and
    [evaluate] fails in no other way: it throws exactly the error that
    the lexer, the syntax check or the parser throws, and returns an
    evaluator exactly when the three accept the expression; on a front-end
    error [fastEvaluate] throws it too, before it looks at the bindings. *)
Theorem evaluate_throws_iff `{Runtime} (expression : string) (e : error) :
  (evaluate expression = Throw e <-> front_end_throws expression e) /\
  ((exists ev, evaluate expression = Return ev) <->
   exists parse_tree us, accepted expression parse_tree us) /\
  (front_end_throws expression e ->
   forall values, fastEvaluate expression values = Throw e).
Proof.
  unfold evaluate, fastEvaluate, front_end_throws, accepted.
  destruct (lexer expression) as [[tokens us]|e1] eqn:Hl; simpl.
  2: { split; [|split].
       - split; [intros [= ->]; by left | intros [[= ->] | (? & ? & ? & _)]; done].
       - split; [by intros [? ?] | by intros (? & ? & ? & ? & ? & _)].
       - intros [[= ->] | (? & ? & ? & _)]; done. }
  destruct (syntax_check tokens) as [tokens'|e2] eqn:Hs; simpl.
  2: { split; [|split].
       - split.
         + intros [= ->]. right. exists tokens, us. split; [done|]. by left.
         + intros [? | (? & ? & [= <- <-] & [Hs' | (? & Hs' & _)])];
             [done | |]; congruence.
       - split; [by intros [? ?]|].
         intros (? & ? & ? & ? & [= <- <-] & ? & _). congruence.
       - intros [? | (? & ? & [= <- <-] & [Hs' | (? & Hs' & _)])] values;
           [done | |]; congruence. }
  destruct (parse tokens') as [parse_tree|e3] eqn:Hp; simpl.
  - split; [|split].
    + split; [done|].
      intros [? | (? & ? & [= <- <-] & [Hs' | (? & Hs' & Hp')])];
        [done | |]; congruence.
    + split; [|by eauto]. intros _. exists parse_tree, us, tokens, tokens'. done.
    + intros [? | (? & ? & [= <- <-] & [Hs' | (? & Hs' & Hp')])];
        [done | |]; congruence.
  - split; [|split].
    + split.
      * intros [= ->]. right. exists tokens, us. split; [done|]. right.
        by exists tokens'.
      * intros [? | (? & ? & [= <- <-] & [Hs' | (? & Hs' & Hp')])];
          [done | |]; congruence.
    + split; [by intros [? ?]|].
      intros (? & ? & ? & ? & [= <- <-] & Hs' & Hp'). congruence.
    + intros [? | (? & ? & [= <- <-] & [Hs' | (? & Hs' & Hp')])] values;
        [done | |]; congruence.
Qed.

Section binding_keys.
Implicit Types (us : list string) (values : bindings).

(** With no name listed twice, the bindings pass the checks exactly when
    their keys are the unknowns and [hasOwnProperty] is not one of them. *)
Lemma checks_error_None_dom us values :
  NoDup us ->
  checks_error us values = None <->
  dom values = (list_to_set us : gset string) /\ "hasOwnProperty" ∉ us.
Proof.
  intros Hnd. rewrite checks_error_None. split.
  - intros (Hsz & Hall & Hrun).
    assert (dom values = (list_to_set us : gset string)) as Hdom.
    { symmetry. apply set_subseteq_size_eq.
      - intros u Hu. apply elem_of_list_to_set in Hu. apply elem_of_dom.
        rewrite Forall_forall in Hall. by apply Hall.
      - rewrite size_dom, size_list_to_set by done. lia. }
    split; [done|]. intros Hin.
    destruct Hrun as [-> | Hown]; [by apply elem_of_nil in Hin|].
    rewrite Forall_forall in Hall. destruct (Hall _ Hin) as [x Hx]. congruence.
  - intros [Hdom Hnin]. split; [|split].
    + by rewrite <- size_dom, Hdom, size_list_to_set.
    + apply Forall_forall. intros u Hu. apply elem_of_dom.
      rewrite Hdom. by apply elem_of_list_to_set.
    + right. apply not_elem_of_dom. rewrite Hdom.
      by rewrite elem_of_list_to_set.
Qed.

Lemma size_list_to_set_le us :
  size (list_to_set us : gset string) <= length us.
Proof.
  induction us as [|u us IH].
  - rewrite list_to_set_nil, size_empty. done.
  - rewrite list_to_set_cons. simpl length.
    destruct (decide (u ∈ (list_to_set us : gset string))) as [Hin|Hnin].
    + rewrite (subseteq_union_1_L {[u]} (list_to_set us))
        by (by apply singleton_subseteq_l).
      lia.
    + rewrite size_union by (by apply disjoint_singleton_l).
      rewrite size_singleton. lia.
Qed.

Lemma size_list_to_set_dup us :
  ~ NoDup us -> size (list_to_set us : gset string) < length us.
Proof.
  induction us as [|u us IH]; intros Hdup.
  - destruct Hdup. constructor.
  - rewrite list_to_set_cons. simpl length.
    destruct (decide (u ∈ us)) as [Hin|Hnin].
    + rewrite (subseteq_union_1_L {[u]} (list_to_set us))
        by (by apply singleton_subseteq_l, elem_of_list_to_set).
      pose proof (size_list_to_set_le us). lia.
    + assert (~ NoDup us) as Hdup' by (intros ?; apply Hdup; by constructor).
      specialize (IH Hdup').
      rewrite size_union
        by (by apply disjoint_singleton_l; rewrite elem_of_list_to_set).
      rewrite size_singleton. lia.
Qed.
End binding_keys.

(** X12. When the lexer lists no name twice, an evaluation gets past the
    checks exactly when the keys of the mapping are the unknowns, no more
    and no fewer, and no unknown is named [hasOwnProperty]: then, and only
    then, [calc] and [fastEvaluate] return. *)
Theorem checks_pass_iff_keys_are_unknowns `{Runtime} (expression : string)
    (parse_tree : node) (us : list string) (values : bindings) :
  accepted expression parse_tree us ->
  well_formed parse_tree = true ->
  NoDup us ->
  exists ev,
    evaluate expression = Return ev /\
    ((exists v, calc ev values = Return v)
     <-> dom values = (list_to_set us : gset string) /\
         "hasOwnProperty" ∉ us) /\
    ((exists v, fastEvaluate expression values = Return v)
     <-> dom values = (list_to_set us : gset string) /\
         "hasOwnProperty" ∉ us).
Proof.
  intros Hacc Hwf Hnd. eexists. split; [by apply evaluate_accepted|]. simpl.
  rewrite checks_error_calc, (checks_error_fastEvaluate _ _ _ _ Hacc).
  rewrite <- (checks_error_None_dom us values Hnd).
  destruct (checks_error us values) as [e|].
  - split; (split; [by intros [? ?] | done]).
  - rewrite call_evaluate_traverse by done.
    split; (split; [done | by eauto]).
Qed.

Lemma checks_pass_iff_keys_are_unknowns_witness :
  let R := fixed_runtime x_plus_y_times_2 ["x"; "y"] in
  let values : bindings := {[ "x" := 1%float; "y" := 3%float ]} in
  (accepted "x + y * 2" x_plus_y_times_2 ["x"; "y"] /\
   well_formed x_plus_y_times_2 = true /\ NoDup ["x"; "y"]) /\
  exists ev,
    evaluate "x + y * 2" = Return ev /\
    ((exists v, calc ev values = Return v)
     <-> dom values = (list_to_set ["x"; "y"] : gset string) /\
         "hasOwnProperty" ∉ ["x"; "y"]) /\
    ((exists v, fastEvaluate "x + y * 2" values = Return v)
     <-> dom values = (list_to_set ["x"; "y"] : gset string) /\
         "hasOwnProperty" ∉ ["x"; "y"]).
Proof.
  intros R values.
  assert (accepted "x + y * 2" x_plus_y_times_2 ["x"; "y"]) as Hacc.
  { exists [], []. repeat split; reflexivity. }
  assert (NoDup ["x"; "y"]) as Hnd.
  { apply NoDup_cons. split; [|apply NoDup_singleton].
    intros Hin. apply list_elem_of_singleton in Hin. discriminate. }
  split; [by repeat split|].
  exact (checks_pass_iff_keys_are_unknowns "x + y * 2" x_plus_y_times_2
           ["x"; "y"] values Hacc eq_refl Hnd).
Defined.

(** X13. The count check relies on the lexer listing each name once: if a
    name is listed twice, a mapping whose keys are all among the unknowns
    never passes; [calc] and [fastEvaluate] fail with the arity error. *)
Theorem duplicate_unknown_fails_arity `{Runtime} (expression : string)
    (parse_tree : node) (us : list string) (values : bindings) :
  accepted expression parse_tree us ->
  ~ NoDup us ->
  dom values ⊆ (list_to_set us : gset string) ->
  exists ev,
    evaluate expression = Return ev /\
    calc ev values
    = Throw (IncorrectNumberOfValues (length us) (size values)) /\
    fastEvaluate expression values
    = Throw (IncorrectNumberOfValues (length us) (size values)).
Proof.
  intros Hacc Hdup Hsub. eexists. split; [by apply evaluate_accepted|]. simpl.
  rewrite checks_error_calc, (checks_error_fastEvaluate _ _ _ _ Hacc).
  unfold checks_error.
  pose proof (size_list_to_set_dup us Hdup) as Hlt.
  pose proof (subseteq_size _ _ Hsub) as Hle. rewrite size_dom in Hle.
  destruct (decide (size values = length us)) as [?|_]; [lia | done].
Qed.

Lemma duplicate_unknown_fails_arity_witness :
  let parse_tree := binary_operator "*" (variable "x") (variable "x") in
  let R := fixed_runtime parse_tree ["x"; "x"] in
  let values : bindings := {[ "x" := 2%float ]} in
  (accepted "x * x" parse_tree ["x"; "x"] /\ ~ NoDup ["x"; "x"] /\
   dom values ⊆ (list_to_set ["x"; "x"] : gset string)) /\
  exists ev,
    evaluate "x * x" = Return ev /\
    calc ev values = Throw (IncorrectNumberOfValues 2 1) /\
    fastEvaluate "x * x" values = Throw (IncorrectNumberOfValues 2 1).
Proof.
  intros parse_tree R values.
  assert (accepted "x * x" parse_tree ["x"; "x"]) as Hacc.
  { exists [], []. repeat split; reflexivity. }
  assert (~ NoDup ["x"; "x"]) as Hdup.
  { intros Hnd. apply NoDup_cons in Hnd as [Hnin _]. apply Hnin.
    by apply list_elem_of_singleton. }
  assert (dom values ⊆ (list_to_set ["x"; "x"] : gset string)) as Hsub.
  { intros k Hk. apply elem_of_dom in Hk as [v Hv]. unfold values in Hv.
    apply lookup_singleton_Some in Hv as [<- _]. set_solver. }
  split; [by repeat split|].
  exact (duplicate_unknown_fails_arity "x * x" parse_tree ["x"; "x"] values
           Hacc Hdup Hsub).
Defined.

Section not_a_number_facts.

(** Arithmetic on [NaN] gives [NaN]. *)
Lemma nan_absorbs (x : float) :
  (nan + x = nan /\ x + nan = nan /\ nan - x = nan /\ x - nan = nan /\
   nan * x = nan /\ x * nan = nan /\ nan / x = nan /\ x / nan = nan)%float.
Proof.
  repeat split.
  all: match goal with |- ?l = _ => rewrite <- (SF2Prim_Prim2SF l) end.
  all: rewrite ?add_spec, ?sub_spec, ?mul_spec, ?div_spec.
  all: change (Prim2SF nan) with S754_nan.
  all: by destruct (Prim2SF x) as [?|?| |? ? ?].
Qed.

Lemma ToNumber_not_a_number v : not_a_number v -> ToNumber v = nan.
Proof. by intros [-> | ->]. Qed.

Lemma arithmetic_not_a_number (op : float -> float -> float) a b :
  (forall x, op nan x = nan /\ op x nan = nan) ->
  not_a_number a \/ not_a_number b ->
  not_a_number (JNum (op (ToNumber a) (ToNumber b))).
Proof.
  intros Hop [Ha | Hb]; right; f_equal.
  - rewrite (ToNumber_not_a_number _ Ha). apply Hop.
  - rewrite (ToNumber_not_a_number _ Hb). apply Hop.
Qed.

(** When no variable of the tree falls through to a member of
    [Object.prototype], the direct walk never makes a string. *)
Lemma fastEvaluate_traverse_no_string t values :
  (forall name, name ∈ variables_of t -> inherited name = true ->
                is_Some (values !! name)) ->
  stringy (fastEvaluate_traverse t values) = false.
Proof.
  induction t as [c IH | op c IH | op l IHl r IHr | v | name]; simpl;
    intros Hown; [by apply IH | | | done |].
  - destruct (String.eqb op "+"); [by apply IH|].
    by destruct (String.eqb op "-").
  - assert (stringy (fastEvaluate_traverse l values) = false) as Hl.
    { apply IHl. intros name Hn. apply Hown, elem_of_app. by left. }
    assert (stringy (fastEvaluate_traverse r values) = false) as Hr.
    { apply IHr. intros name Hn. apply Hown, elem_of_app. by right. }
    unfold js_add. rewrite Hl, Hr. simpl.
    by repeat (destruct (String.eqb op _); [done|]).
  - unfold get. destruct (values !! name) as [x|] eqn:Hx; [done|].
    destruct (inherited name) eqn:Hi; [|done].
    destruct (Hown name) as [y Hy]; [by apply list_elem_of_singleton | done |].
    congruence.
Qed.

(** An exponentiation anywhere in the tree spoils the direct walk. *)
Lemma fastEvaluate_traverse_power_inside t values :
  (forall name, name ∈ variables_of t -> inherited name = true ->
                is_Some (values !! name)) ->
  power_free t = false -> not_a_number (fastEvaluate_traverse t values).
Proof.
  induction t as [c IH | op c IH | op l IHl r IHr | v | name]; simpl;
    intros Hown Hpf; [by apply IH | | | done..].
  - destruct (String.eqb op "+"); [by apply IH|].
    destruct (String.eqb op "-"); [|by left].
    right. unfold js_neg. by rewrite (ToNumber_not_a_number _ (IH Hown Hpf)).
  - assert (forall name, name ∈ variables_of l -> inherited name = true ->
                         is_Some (values !! name)) as Hownl.
    { intros name Hn. apply Hown, elem_of_app. by left. }
    assert (forall name, name ∈ variables_of r -> inherited name = true ->
                         is_Some (values !! name)) as Hownr.
    { intros name Hn. apply Hown, elem_of_app. by right. }
    assert (String.eqb op "^" = false ->
            not_a_number (fastEvaluate_traverse l values) \/
            not_a_number (fastEvaluate_traverse r values)) as Hchild.
    { intros Hop. rewrite Hop in Hpf. simpl in Hpf.
      destruct (power_free l); [right; by apply IHr | left; by apply IHl]. }
    pose proof nan_absorbs as Hnan.
    destruct (String.eqb_spec op "+") as [->|_].
    { unfold js_add.
      rewrite (fastEvaluate_traverse_no_string l values Hownl).
      rewrite (fastEvaluate_traverse_no_string r values Hownr). simpl.
      apply (arithmetic_not_a_number PrimFloat.add); [|by apply Hchild].
      intros x. destruct (Hnan x) as (? & ? & _). done. }
    destruct (String.eqb_spec op "-") as [->|_].
    { apply (arithmetic_not_a_number PrimFloat.sub); [|by apply Hchild].
      intros x. destruct (Hnan x) as (_ & _ & ? & ? & _). done. }
    destruct (String.eqb_spec op "*") as [->|_].
    { apply (arithmetic_not_a_number PrimFloat.mul); [|by apply Hchild].
      intros x. destruct (Hnan x) as (_ & _ & _ & _ & ? & ? & _). done. }
    destruct (String.eqb_spec op "/") as [->|_]; [|by left].
    apply (arithmetic_not_a_number PrimFloat.div); [|by apply Hchild].
    intros x. destruct (Hnan x) as (_ & _ & _ & _ & _ & _ & ? & ?). done.
Qed.
End not_a_number_facts.

(** X14. In the direct path an exponentiation spoils the whole
    expression: if the tree has a [^] node anywhere, then with bindings
    that pass the checks (as many keys as unknowns, every unknown a key,
    and [hasOwnProperty] not a key when there is an unknown to check) and
    that have a key for every variable of the tree that names a member of
    [Object.prototype], [fastEvaluate] returns [undefined] or [NaN],
    whatever the values of the bindings. *)
Theorem fastEvaluate_power_anywhere `{Runtime} (expression : string)
    (parse_tree : node) (us : list string) (values : bindings) :
  accepted expression parse_tree us ->
  power_free parse_tree = false ->
  size values = length us ->
  Forall (fun u => is_Some (values !! u)) us ->
  presence_check_runs us values ->
  (forall name, name ∈ variables_of parse_tree -> inherited name = true ->
                is_Some (values !! name)) ->
  fastEvaluate expression values = Return JUndefined \/
  fastEvaluate expression values = Return (JNum nan).
Proof.
  intros Hacc Hpf Hsz Hall Hrun Hown.
  rewrite (checks_error_fastEvaluate _ _ _ _ Hacc).
  rewrite (proj2 (checks_error_None us values) (conj Hsz (conj Hall Hrun))).
  destruct (fastEvaluate_traverse_power_inside parse_tree values Hown Hpf)
    as [-> | ->]; auto.
Qed.

Lemma fastEvaluate_power_anywhere_witness :
  let parse_tree :=
    binary_operator "*" (variable "x")
      (block (binary_operator "+" (literal "1")
                (binary_operator "^" (variable "x") (literal "2")))) in
  let R := fixed_runtime parse_tree ["x"] in
  let values : bindings := {[ "x" := 3%float ]} in
  (accepted "x * (1 + x ^ 2)" parse_tree ["x"] /\
   power_free parse_tree = false /\ size values = length ["x"] /\
   Forall (fun u => is_Some (values !! u)) ["x"] /\
   presence_check_runs ["x"] values /\
   (forall name, name ∈ variables_of parse_tree -> inherited name = true ->
                 is_Some (values !! name))) /\
  (fastEvaluate "x * (1 + x ^ 2)" values = Return JUndefined \/
   fastEvaluate "x * (1 + x ^ 2)" values = Return (JNum nan)).
Proof.
  intros parse_tree R values.
  assert (accepted "x * (1 + x ^ 2)" parse_tree ["x"]) as Hacc.
  { exists [], []. repeat split; reflexivity. }
  assert (Forall (fun u => is_Some (values !! u)) ["x"]) as Hall.
  { repeat constructor. by exists 3%float. }
  assert (presence_check_runs ["x"] values) as Hrun.
  { right. vm_compute. reflexivity. }
  assert (forall name, name ∈ variables_of parse_tree ->
                       inherited name = true -> is_Some (values !! name))
    as Hown.
  { intros name Hin _. simpl in Hin.
    repeat (apply elem_of_cons in Hin as [-> | Hin]; [by exists 3%float|]).
    by apply elem_of_nil in Hin. }
  split; [by repeat split|].
  exact (fastEvaluate_power_anywhere "x * (1 + x ^ 2)" parse_tree ["x"] values
           Hacc eq_refl eq_refl Hall Hrun Hown).
Defined.

(** X15. Away from exponentiation the two evaluators agree: on a tree of
    the data model without [^], each of whose literals [parseInt] and
    [parseFloat] read as the same Number (as they do a string of digits),
    a call of [calc] and a call of [fastEvaluate] have the same outcome,
    the same error or the same value, for every binding mapping. *)
Theorem evaluators_agree_without_power `{Runtime} (expression : string)
    (parse_tree : node) (us : list string) (values : bindings) :
  accepted expression parse_tree us ->
  well_formed parse_tree = true -> power_free parse_tree = true ->
  literals_agree parse_tree ->
  exists ev,
    evaluate expression = Return ev /\
    calc ev values = fastEvaluate expression values.
Proof.
  intros Hacc Hwf Hpf Hlit. eexists.
  split; [by apply evaluate_accepted|].
  simpl. rewrite checks_error_calc, (checks_error_fastEvaluate _ _ _ _ Hacc).
  destruct (checks_error us values); [done|].
  by rewrite call_evaluate_traverse, fastEvaluate_traverse_value.
Qed.

Lemma evaluators_agree_without_power_witness :
  let parse_tree :=
    binary_operator "/" (unary_operator "-" (variable "x"))
      (block (binary_operator "-" (literal "10") (literal "2.0"))) in
  let R := fixed_runtime parse_tree ["x"] in
  let values : bindings := {[ "x" := 4%float ]} in
  (accepted "-x / (10 - 2.0)" parse_tree ["x"] /\
   well_formed parse_tree = true /\ power_free parse_tree = true /\
   literals_agree parse_tree) /\
  exists ev,
    evaluate "-x / (10 - 2.0)" = Return ev /\
    calc ev values = fastEvaluate "-x / (10 - 2.0)" values.
Proof.
  intros parse_tree R values.
  assert (accepted "-x / (10 - 2.0)" parse_tree ["x"]) as Hacc.
  { exists [], []. repeat split; reflexivity. }
  assert (literals_agree parse_tree) as Hlit.
  { repeat split; reflexivity. }
  split.
  { split; [exact Hacc|]. split; [reflexivity|]. split; [reflexivity|exact Hlit]. }
  exact (evaluators_agree_without_power "-x / (10 - 2.0)" parse_tree ["x"]
           values Hacc eq_refl eq_refl Hlit).
Defined.

(** Case analysis on the operator of a node. *)
Ltac case_node_operator op s E :=
  destruct (String.eqb op s) eqn:E;
  [apply String.eqb_eq in E; subst op; simpl | simpl].

Section unknown_operators.
Context `{Runtime}.

(** A tree with an operator outside the data model has a node without
    [fn]; the call reaches it and is a TypeError. *)
Lemma call_evaluate_traverse_ill_formed (t : node) (vars : bindings) :
  well_formed t = false ->
  call (evaluate_traverse t) vars = Throw NotAFunction.
Proof.
  induction t as [c IH | op c IH | op l IHl r IHr | v | name]; simpl;
    intros Hwf; [by apply IH | | | done..].
  - case_node_operator op "+" E1; [by apply IH|].
    case_node_operator op "-" E2; [by rewrite IH|]. done.
  - assert (well_formed l && well_formed r = false ->
            forall op' : jsval -> jsval -> jsval,
                        (try! a := call (evaluate_traverse l) vars in
                         try! b := call (evaluate_traverse r) vars in
                         Return (op' a b)) = Throw NotAFunction) as Hargs.
    { intros Hlr op'. destruct (well_formed l) eqn:Hl.
      - rewrite call_evaluate_traverse by done. simpl. by rewrite IHr.
      - by rewrite IHl. }
    case_node_operator op "+" E1; [simpl in Hwf; by apply Hargs|].
    case_node_operator op "-" E2; [simpl in Hwf; by apply Hargs|].
    case_node_operator op "*" E3; [simpl in Hwf; by apply Hargs|].
    case_node_operator op "/" E4; [simpl in Hwf; by apply Hargs|].
    case_node_operator op "^" E5; [simpl in Hwf; by apply Hargs|]. done.
Qed.
End unknown_operators.

(** X16. After the checks, that is with as many keys as unknowns, every
    unknown a key, and [hasOwnProperty] not a key when there is an unknown
    to check, [calc] can only fail with the TypeError of a missing [fn],
    and does so exactly when the tree carries an operator that [traverse]
    has no case for; [fastEvaluate] returns on every tree. *)
Theorem calc_type_error_iff `{Runtime} (expression : string)
    (parse_tree : node) (us : list string) (values : bindings) :
  accepted expression parse_tree us ->
  size values = length us ->
  Forall (fun u => is_Some (values !! u)) us ->
  presence_check_runs us values ->
  exists ev,
    evaluate expression = Return ev /\
    (calc ev values = Throw NotAFunction <-> well_formed parse_tree = false) /\
    (forall e, calc ev values = Throw e -> e = NotAFunction) /\
    exists v, fastEvaluate expression values = Return v.
Proof.
  intros Hacc Hsz Hall Hrun.
  pose proof (proj2 (checks_error_None us values) (conj Hsz (conj Hall Hrun)))
    as Hok.
  eexists. split; [by apply evaluate_accepted|]. simpl.
  rewrite checks_error_calc, (checks_error_fastEvaluate _ _ _ _ Hacc), Hok.
  destruct (well_formed parse_tree) eqn:Hwf.
  - rewrite call_evaluate_traverse by done.
    split; [by split|]. split; [done | by eauto].
  - rewrite call_evaluate_traverse_ill_formed by done.
    split; [by split|]. split; [by intros e [= <-] | by eauto].
Qed.

Lemma calc_type_error_iff_witness :
  let parse_tree := binary_operator "%" (literal "7") (literal "2") in
  let R := fixed_runtime parse_tree [] in
  (accepted "7 % 2" parse_tree [] /\
   size (∅ : bindings) = length ([] : list string) /\
   Forall (fun u => is_Some ((∅ : bindings) !! u)) [] /\
   presence_check_runs [] (∅ : bindings)) /\
  exists ev,
    evaluate "7 % 2" = Return ev /\
    calc ev ∅ = Throw NotAFunction /\
    fastEvaluate "7 % 2" ∅ = Return JUndefined.
Proof.
  intros parse_tree R.
  assert (accepted "7 % 2" parse_tree []) as Hacc.
  { exists [], []. repeat split; reflexivity. }
  assert (Forall (fun u => is_Some ((∅ : bindings) !! u)) []) as Hall
    by constructor.
  assert (presence_check_runs [] (∅ : bindings)) as Hrun by (by left).
  split; [by repeat split|].
  assert (size (∅ : bindings) = length ([] : list string)) as Hsz
    by reflexivity.
  destruct (calc_type_error_iff "7 % 2" parse_tree [] ∅ Hacc Hsz Hall Hrun)
    as (ev & Hev & [_ Hiff] & _ & _).
  exists ev. split; [exact Hev|]. split; [by apply Hiff | reflexivity].
Defined.

(** X18. With bindings in which [hasOwnProperty] is not a key, [calc] of a
    compiled evaluator has the outcomes of the specification: the arity
    error exactly when the number of keys is not the number of unknowns
    (whatever the keys are); with as many keys as unknowns and some
    unknown that is not a key, the missing-variable error that names the
    first such unknown; otherwise the value of the tree, a Number when the
    variables of the tree are among the unknowns. *)
Theorem calc_outcomes_when_check_runs `{Runtime} (expression : string)
    (parse_tree : node) (us : list string) :
  accepted expression parse_tree us ->
  well_formed parse_tree = true ->
  exists ev,
    evaluate expression = Return ev /\ unknowns ev = us /\
    forall variables : bindings,
      ((exists n m, calc ev variables = Throw (IncorrectNumberOfValues n m))
       <-> size variables <> length us) /\
      (size variables <> length us ->
       calc ev variables
       = Throw (IncorrectNumberOfValues (length us) (size variables))) /\
      (size variables = length us ->
       variables !! "hasOwnProperty" = None ->
       (exists v, v ∈ us /\ variables !! v = None) ->
       exists pre v post,
         us = pre ++ v :: post /\
         Forall (fun u => is_Some (variables !! u)) pre /\
         variables !! v = None /\
         calc ev variables = Throw (MissingValue v)) /\
      (size variables = length us ->
       presence_check_runs us variables ->
       Forall (fun u => is_Some (variables !! u)) us ->
       calc ev variables = Return (tree_value parse_tree variables) /\
       ((forall name, name ∈ variables_of parse_tree -> name ∈ us) ->
        exists x, calc ev variables = Return (JNum x))).
Proof.
  intros Hacc Hwf. eexists. split; [by apply evaluate_accepted|].
  split; [done|]. intros variables. simpl.
  rewrite checks_error_calc, (call_evaluate_traverse _ _ Hwf).
  unfold checks_error.
  destruct (decide (size variables = length us)) as [Heq|Hne].
  2: { split; [split; [done | by eauto]|]. by repeat split. }
  split.
  { split; [|done]. intros (n & m & Hthrow).
    destruct us as [|u us]; [done|].
    destruct (decide _); [done|].
    by destruct (head _). }
  split; [done|]. split.
  - intros _ Hown (w & Hin & Hw).
    destruct us as [|u us]; [by apply elem_of_nil in Hin|].
    destruct (decide (is_Some (variables !! "hasOwnProperty"))) as [[x Hx]|_];
      [congruence|].
    destruct (evaluate_for_of_cases (u :: us) variables Hown)
      as [[Hall _] | (pre & v & post & Hus & Hpre & Hv & _)].
    + rewrite Forall_forall in Hall. destruct (Hall w Hin) as [x Hx].
      congruence.
    + exists pre, v, post. rewrite Hus at 2.
      rewrite filter_app, (filter_absent_nil _ _ Hpre), filter_cons_True by done.
      done.
  - intros _ Hrun Hall.
    pose proof (proj2 (checks_error_None us variables)
                  (conj Heq (conj Hall Hrun))) as Hok.
    unfold checks_error in Hok.
    destruct (decide (size variables = length us)) as [_|?]; [|done].
    rewrite Hok. split; [done|]. intros Hsub.
    destruct (tree_value_number parse_tree variables Hwf) as [x ->].
    { intros name Hname. rewrite Forall_forall in Hall. auto. }
    by exists x.
Qed.

Lemma calc_outcomes_when_check_runs_witness :
  let parse_tree :=
    binary_operator "+" (variable "x")
      (binary_operator "*" (variable "y") (literal "2")) in
  let us := ["x"; "y"] in
  let R := fixed_runtime parse_tree us in
  (accepted "x + y * 2" parse_tree us /\ well_formed parse_tree = true) /\
  exists ev,
    evaluate "x + y * 2" = Return ev /\
    calc ev {[ "x" := 1%float ]} = Throw (IncorrectNumberOfValues 2 1) /\
    calc ev {[ "x" := 1%float; "y" := 3%float ]} = Return (JNum 7).
Proof.
  intros parse_tree us R.
  assert (accepted "x + y * 2" parse_tree us) as Hacc.
  { exists [], []. repeat split; reflexivity. }
  assert (well_formed parse_tree = true) as Hwf by reflexivity.
  split; [by split|].
  destruct (calc_outcomes_when_check_runs "x + y * 2" parse_tree us Hacc Hwf)
    as (ev & Hev & _ & Hcalc).
  exists ev. split; [exact Hev|]. split.
  - destruct (Hcalc {[ "x" := 1%float ]}) as (_ & Harity & _).
    rewrite Harity by (vm_compute; discriminate). by vm_compute.
  - destruct (Hcalc {[ "x" := 1%float; "y" := 3%float ]}) as (_ & _ & _ & Hval).
    destruct Hval as [-> _].
    + by vm_compute.
    + right. by vm_compute.
    + repeat constructor; eexists; by vm_compute.
    + by vm_compute.
Defined.

(** X17. A parenthesis left unclosed at the end of the input encloses the
    rest: every block that starts after an unclosed one lies at a deeper
    level, and the unclosed blocks themselves are, in order, at the
    levels 1, 2, ... up to the depth at the end of the input. *)
Theorem parentheses_unclosed_encloses_rest (tokens : list token)
    (blocks : list paren) :
  parentheses tokens = Return blocks ->
  (forall b b', b ∈ blocks -> b' ∈ blocks -> end_ b = None ->
                start b < start b' -> (level b < level b')%Z) /\
  level <$> filter (fun b => end_ b = None) blocks
  = Z.of_nat <$> seq 1 (Z.to_nat (depth tokens)).
Proof.
  intros Hret.
  assert (never_negative tokens) as Hnn
    by (by eapply parentheses_Return_never_negative).
  destruct (parentheses_run tokens Hnn) as (blocks' & Hret' & I).
  assert (blocks' = blocks) as -> by congruence.
  split.
  - intros b b' Hin Hin' He Hlt.
    pose proof (scan_inv_open_at _ _ _ _ I Hin) as Ho.
    pose proof (scan_inv_open_at _ _ _ _ I Hin') as Ho'.
    pose proof (is_open_lt _ _ Ho').
    rewrite (inv_depth _ _ _ I b Hin), (inv_depth _ _ _ I b' Hin').
    rewrite (depth_at_open _ _ Ho), (depth_at_open _ _ Ho').
    pose proof (inv_pending _ _ _ I b Hin He (start b')). lia.
  - destruct (inv_stack _ _ _ I) as (n & Hn & ->).
    by rewrite Hn, Nat2Z.id.
Qed.

Lemma parentheses_unclosed_encloses_rest_witness :
  let tokens := [tk "paren_open"; tk "paren_open"; tk "paren_close";
                 tk "paren_open"; tk "paren_open"; tk "paren_close"] in
  let blocks := [Paren 0 None 1; Paren 1 (Some 3) 2; Paren 3 None 2;
                 Paren 4 (Some 6) 3] in
  parentheses tokens = Return blocks /\
  (forall b b', b ∈ blocks -> b' ∈ blocks -> end_ b = None ->
                start b < start b' -> (level b < level b')%Z) /\
  level <$> filter (fun b => end_ b = None) blocks
  = Z.of_nat <$> seq 1 (Z.to_nat (depth tokens)).
Proof.
  intros tokens blocks.
  assert (parentheses tokens = Return blocks) as H by reflexivity.
  split; [exact H|]. exact (parentheses_unclosed_encloses_rest tokens blocks H).
Defined.
